(** * Merging several mapsets into one under lease locks

    A shallow embedding of [AsyncPersistentMapsetMerging]
    (src/actinia_core/resources/persistent_mapset_merger.py): the lock
    registry [lock_ids], the acquisition of the target and source locks, the
    merge loop with its termination poll and lease extension, and the final
    cleanup.  The collaborators of the class (existence check, lock service,
    termination flag, copy primitive, loggers) are parameters; every call to
    one of them is recorded in a trace of events so that calls can be counted
    and ordered. *)

From Stdlib Require Import String List ZArith Bool Lia.
From Stdlib Require Import Permutation DecimalString.
Import ListNotations.
Local Open Scope string_scope.
Local Open Scope Z_scope.
Local Open Scope list_scope.

(** ** The lock registry

    [self.lock_ids] is a Python dict from lock id to mapset name.  A dict
    iterates in insertion order and an assignment to a key that is already
    present keeps the key's position, so the registry is an association list
    updated in place. *)

Module Dict.

Definition dict := list (string * string).

Definition empty : dict := [].

Fixpoint set (k v : string) (d : dict) : dict :=
  match d with
  | [] => [(k, v)]
  | (k', v') :: d' =>
      if String.eqb k k' then (k, v) :: d' else (k', v') :: set k v d'
  end.

Fixpoint get (k : string) (d : dict) : option string :=
  match d with
  | [] => None
  | (k', v') :: d' => if String.eqb k k' then Some v' else get k d'
  end.

Definition keys (d : dict) : list string := map fst d.

Definition values (d : dict) : list string := map snd d.

Definition mem (k : string) (d : dict) : bool :=
  existsb (String.eqb k) (keys d).

End Dict.

Definition dict := Dict.dict.

(** ** Messages, exceptions and events *)

(** The texts the class formats, kept structured; [render] gives the text. *)
Inductive message :=
| MsgNotExist (mapset_name : string)
| MsgAlreadyLocked (mapset_name : string)
| MsgLocked (mapset_name : string)
| MsgEmptySources
| MsgTerminated (step steps : Z)
| MsgExtendFailed (mapset_name : string)
| MsgStep (step steps : Z) (mapset_name target_mapset_name : string).

Definition fmt_i (z : Z) : string := NilZero.string_of_int (Z.to_int z).

Definition render (m : message) : string :=
  match m with
  | MsgNotExist n =>
      "Mapset <" ++ n ++ "> does not exist and can not be locked."
  | MsgAlreadyLocked n =>
      "Unable to lock mapset <" ++ n ++ ">, resource is already locked"
  | MsgLocked n => "Mapset <" ++ n ++ "> locked"
  | MsgEmptySources => "Empty source mapset list."
  | MsgTerminated s n =>
      "Mapset merging was terminated by user request at setp "
        ++ fmt_i s ++ " of " ++ fmt_i n
  | MsgExtendFailed n => "Unable to extend lock for mapset <" ++ n ++ ">"
  | MsgStep s n src tgt =>
      "Step " ++ fmt_i s ++ " of " ++ fmt_i n
        ++ ": Copy content from source mapset <" ++ src
        ++ "> into target mapset <" ++ tgt ++ ">"
  end%string.

Inductive exn :=
| AsyncProcessError (m : message)
| AsyncProcessTermination (m : message)
| External (what : string).

Inductive res (A : Type) :=
| Ret (a : A)
| Raise (e : exn).

Arguments Ret {A} a.
Arguments Raise {A} e.

(** One event per call that leaves the class, with what the call gave back. *)
Inductive event :=
| EvSetup (r : res unit)
| EvCheck (mapset_name : string) (r : res bool)
| EvLock (lock_id : string) (expiration : Z) (r : res Z)
| EvExtend (lock_id : string) (expiration : Z) (r : res Z)
| EvUnlock (lock_id : string) (r : res Z)
| EvTerm (user_id resource_id : string) (r : res bool)
| EvMerge (source target : string) (r : res unit)
| EvUpdate (m : message)
| EvLog (m : message)
| EvParentCleanup (r : res unit).

(** ** The object and its collaborators *)

(** The attributes of [self] that the merge reads and never writes. *)
Record Self := mkSelf {
  user_group : string;
  location_name : string;
  target_mapset_name : string;
  request_data : list string;
  process_time_limit : Z;
  process_num_limit : Z;
  user_id : string;
  resource_id : string
}.

(** What the run writes: the registry, the locals [step] and
    [mapsets_to_merge] of [_merge_mapsets] (meaningful once assigned), and the
    state [W] of everything outside the class. *)
Record state (W : Type) := mkState {
  lock_ids : dict;
  step : Z;
  mapsets_to_merge : list string;
  world : W
}.

Arguments mkState {W} _ _ _ _.
Arguments lock_ids {W} _.
Arguments step {W} _.
Arguments mapsets_to_merge {W} _.
Arguments world {W} _.

(** The collaborators: inherited methods and services whose code is outside
    this file.  Each acts on the outside world and either returns or raises. *)
Record Env (W : Type) := mkEnv {
  _setup : W -> res unit * W;
  _check_mapset : W -> string -> res bool * W;
  lock : W -> string -> Z -> res Z * W;
  extend : W -> string -> Z -> res Z * W;
  unlock : W -> string -> res Z * W;
  get_termination : W -> string -> string -> res bool * W;
  _merge_mapset_into_target : W -> string -> string -> res unit * W;
  parent_final_cleanup : W -> res unit * W
}.

Arguments _setup {W} _ _.
Arguments _check_mapset {W} _ _ _.
Arguments lock {W} _ _ _ _.
Arguments extend {W} _ _ _ _.
Arguments unlock {W} _ _ _.
Arguments get_termination {W} _ _ _ _.
Arguments _merge_mapset_into_target {W} _ _ _ _.
Arguments parent_final_cleanup {W} _ _.

(** ** Computations: state, exceptions and the trace of calls *)

Definition M (W A : Type) : Type := state W -> res A * state W * list event.

Definition ret {W A} (a : A) : M W A := fun st => (Ret a, st, []).

Definition raise {W A} (e : exn) : M W A := fun st => (Raise e, st, []).

Definition bind {W A B} (m : M W A) (f : A -> M W B) : M W B :=
  fun st =>
    match m st with
    | (Ret a, st1, t1) =>
        match f a st1 with
        | (r, st2, t2) => (r, st2, t1 ++ t2)
        end
    | (Raise e, st1, t1) => (Raise e, st1, t1)
    end.

Notation "x <- m ;; k" := (bind m (fun x => k))
  (at level 61, m at next level, right associativity).
Notation "m ;; k" := (bind m (fun _ => k))
  (at level 61, right associativity).

(** [for x in xs: body(x)] *)
Fixpoint for_each {W A} (xs : list A) (body : A -> M W unit) : M W unit :=
  match xs with
  | [] => ret tt
  | x :: xs' => body x ;; for_each xs' body
  end.

Definition get_lock_ids {W} : M W dict := fun st => (Ret (lock_ids st), st, []).

Definition get_step {W} : M W Z := fun st => (Ret (step st), st, []).

Definition set_lock_id {W} (k v : string) : M W unit :=
  fun st =>
    (Ret tt,
     mkState (Dict.set k v (lock_ids st)) (step st) (mapsets_to_merge st)
       (world st),
     []).

Definition set_step {W} (s : Z) : M W unit :=
  fun st =>
    (Ret tt, mkState (lock_ids st) s (mapsets_to_merge st) (world st), []).

Definition set_mapsets_to_merge {W} (l : list string) : M W unit :=
  fun st => (Ret tt, mkState (lock_ids st) (step st) l (world st), []).

Definition append_mapsets_to_merge {W} (n : string) : M W unit :=
  fun st =>
    (Ret tt,
     mkState (lock_ids st) (step st) (mapsets_to_merge st ++ [n]) (world st),
     []).

Definition with_world {W} (st : state W) (w : W) : state W :=
  mkState (lock_ids st) (step st) (mapsets_to_merge st) w.

(** A call to a collaborator: the world moves on, the call is recorded. *)
Definition call {W A} (f : W -> res A * W) (ev : res A -> event) : M W A :=
  fun st =>
    match f (world st) with
    | (r, w) => (r, with_world st w, [ev r])
    end.

Definition emit {W} (ev : event) : M W unit := fun st => (Ret tt, st, [ev]).

(** ** The class *)

Section Merging.

Context {W : Type}.
Variable env : Env W.
Variable self : Self.

(** [self.lock_ids = {}] in the constructor. *)
Definition init_state (w : W) : state W := mkState Dict.empty 0 [] w.

(** ["%s/%s/%s" % (self.user_group, self.location_name, mapset_name)] *)
Definition lock_id_of (mapset_name : string) : string :=
  (user_group self ++ "/" ++ location_name self ++ "/" ++ mapset_name)%string.

Definition _check_lock_mapset (mapset_name : string) : M W unit :=
  mapset_exists <- call (fun w => _check_mapset env w mapset_name)
                        (EvCheck mapset_name) ;;
  (if mapset_exists then ret tt
   else raise (AsyncProcessError (MsgNotExist mapset_name))) ;;
  let lock_id := lock_id_of mapset_name in
  let expiration := process_time_limit self * process_num_limit self in
  r <- call (fun w => lock env w lock_id expiration)
            (EvLock lock_id expiration) ;;
  (if r =? 0 then raise (AsyncProcessError (MsgAlreadyLocked mapset_name))
   else ret tt) ;;
  emit (EvLog (MsgLocked mapset_name)) ;;
  set_lock_id lock_id mapset_name.

Definition _check_lock_source_mapsets (source_mapsets : list string)
  : M W unit :=
  (if (length source_mapsets =? 0)%nat
   then raise (AsyncProcessError MsgEmptySources)
   else ret tt) ;;
  for_each source_mapsets _check_lock_mapset.

(** The body of the inner loop of [_merge_mapsets]: extend one lock; a
    failure names [mapset_name], the mapset of the outer iteration. *)
Definition extend_lock (mapset_name lock_id : string) : M W unit :=
  let expiration := process_time_limit self * 2 in
  r <- call (fun w => extend env w lock_id expiration)
            (EvExtend lock_id expiration) ;;
  if r =? 0 then raise (AsyncProcessError (MsgExtendFailed mapset_name))
  else ret tt.

(** The inner loop of [_merge_mapsets]: every registered lock is extended. *)
Definition extend_locks (mapset_name : string) : M W unit :=
  ids <- get_lock_ids ;;
  for_each (Dict.keys ids) (extend_lock mapset_name).

(** The body of the outer loop of [_merge_mapsets].  The inner loop reuses
    the name [lock_id]; [mapset_name] is read before it and the outer loop
    takes its next key from the dict iterator, so the rebinding changes
    nothing. *)
Definition merge_step (steps : Z) (lock_id : string) : M W unit :=
  t <- call (fun w => get_termination env w (user_id self) (resource_id self))
            (EvTerm (user_id self) (resource_id self)) ;;
  (if t
   then s <- get_step ;;
        raise (AsyncProcessTermination (MsgTerminated s steps))
   else ret tt) ;;
  ids <- get_lock_ids ;;
  mapset_name <- match Dict.get lock_id ids with
                 | Some n => ret n
                 | None => raise (External "KeyError")
                 end ;;
  append_mapsets_to_merge mapset_name ;;
  extend_locks mapset_name ;;
  s <- get_step ;;
  let message := MsgStep s steps mapset_name (target_mapset_name self) in
  emit (EvUpdate message) ;;
  emit (EvLog message) ;;
  if negb (String.eqb mapset_name (target_mapset_name self))
  then set_step (s + 1) ;;
       call (fun w => _merge_mapset_into_target env w mapset_name
                        (target_mapset_name self))
            (EvMerge mapset_name (target_mapset_name self))
  else ret tt.

Definition _merge_mapsets : M W unit :=
  _check_lock_mapset (target_mapset_name self) ;;
  _check_lock_source_mapsets (request_data self) ;;
  set_step 1 ;;
  let steps := Z.of_nat (length (request_data self)) in
  set_mapsets_to_merge [] ;;
  ids <- get_lock_ids ;;
  for_each (Dict.keys ids) (merge_step steps).

Definition _execute : M W unit :=
  call (_setup env) EvSetup ;;
  _merge_mapsets.

(** The body of the loop of [_final_cleanup]: the value [unlock] returns is
    dropped. *)
Definition unlock_one (lock_id : string) : M W unit :=
  _ <- call (fun w => unlock env w lock_id) (EvUnlock lock_id) ;;
  ret tt.

Definition _final_cleanup : M W unit :=
  call (parent_final_cleanup env) EvParentCleanup ;;
  ids <- get_lock_ids ;;
  for_each (Dict.keys ids) unlock_one.

(** ** Outcomes

    The shapes a call of each method can take: the result, the state left
    behind and the calls made.  The facts below prove that the methods have
    no other. *)

(** The five ways [_check_lock_mapset] can go. *)
Inductive acquire_outcome (mapset_name : string) (st : state W)
  : res unit * state W * list event -> Prop :=
| acq_check_raised e w :
    acquire_outcome mapset_name st
      (Raise e, with_world st w, [EvCheck mapset_name (Raise e)])
| acq_missing w :
    acquire_outcome mapset_name st
      (Raise (AsyncProcessError (MsgNotExist mapset_name)), with_world st w,
       [EvCheck mapset_name (Ret false)])
| acq_lock_raised e w :
    acquire_outcome mapset_name st
      (Raise e, with_world st w,
       [EvCheck mapset_name (Ret true);
        EvLock (lock_id_of mapset_name)
          (process_time_limit self * process_num_limit self) (Raise e)])
| acq_refused w :
    acquire_outcome mapset_name st
      (Raise (AsyncProcessError (MsgAlreadyLocked mapset_name)),
       with_world st w,
       [EvCheck mapset_name (Ret true);
        EvLock (lock_id_of mapset_name)
          (process_time_limit self * process_num_limit self) (Ret 0)])
| acq_granted z w :
    z <> 0 ->
    acquire_outcome mapset_name st
      (Ret tt,
       mkState (Dict.set (lock_id_of mapset_name) mapset_name (lock_ids st))
         (step st) (mapsets_to_merge st) w,
       [EvCheck mapset_name (Ret true);
        EvLock (lock_id_of mapset_name)
          (process_time_limit self * process_num_limit self) (Ret z);
        EvLog (MsgLocked mapset_name)]).

(** The ways the inner loop over the keys [ks] can go: every extension is
    granted, or the first one that is not ends the loop. *)
Inductive extend_outcome (mapset_name : string)
  : list string -> res unit -> list event -> Prop :=
| ext_done : extend_outcome mapset_name [] (Ret tt) []
| ext_granted k ks z r t :
    z <> 0 ->
    extend_outcome mapset_name ks r t ->
    extend_outcome mapset_name (k :: ks) r
      (EvExtend k (process_time_limit self * 2) (Ret z) :: t)
| ext_refused k ks :
    extend_outcome mapset_name (k :: ks)
      (Raise (AsyncProcessError (MsgExtendFailed mapset_name)))
      [EvExtend k (process_time_limit self * 2) (Ret 0)]
| ext_raised k ks e :
    extend_outcome mapset_name (k :: ks) (Raise e)
      [EvExtend k (process_time_limit self * 2) (Raise e)].

(** The ways one iteration of the outer loop can go, from state [st] with
    [steps] the length of the request. *)
Inductive step_outcome (steps : Z) (lock_id : string) (st : state W)
  : res unit * state W * list event -> Prop :=
| so_poll_raised e st' :
    lock_ids st' = lock_ids st -> step st' = step st ->
    step_outcome steps lock_id st
      (Raise e, st', [EvTerm (user_id self) (resource_id self) (Raise e)])
| so_terminated st' :
    lock_ids st' = lock_ids st -> step st' = step st ->
    step_outcome steps lock_id st
      (Raise (AsyncProcessTermination (MsgTerminated (step st) steps)), st',
       [EvTerm (user_id self) (resource_id self) (Ret true)])
| so_key_error st' :
    lock_ids st' = lock_ids st -> step st' = step st ->
    Dict.get lock_id (lock_ids st) = None ->
    step_outcome steps lock_id st
      (Raise (External "KeyError"), st',
       [EvTerm (user_id self) (resource_id self) (Ret false)])
| so_extend_failed name e st' tx :
    lock_ids st' = lock_ids st -> step st' = step st ->
    Dict.get lock_id (lock_ids st) = Some name ->
    extend_outcome name (Dict.keys (lock_ids st)) (Raise e) tx ->
    step_outcome steps lock_id st
      (Raise e, st',
       EvTerm (user_id self) (resource_id self) (Ret false) :: tx)
| so_skipped name st' tx :
    lock_ids st' = lock_ids st -> step st' = step st ->
    Dict.get lock_id (lock_ids st) = Some name ->
    extend_outcome name (Dict.keys (lock_ids st)) (Ret tt) tx ->
    name = target_mapset_name self ->
    step_outcome steps lock_id st
      (Ret tt, st',
       EvTerm (user_id self) (resource_id self) (Ret false)
         :: tx ++ [EvUpdate (MsgStep (step st) steps name
                               (target_mapset_name self));
                   EvLog (MsgStep (step st) steps name
                            (target_mapset_name self))])
| so_merged name rm st' tx :
    lock_ids st' = lock_ids st -> step st' = step st + 1 ->
    Dict.get lock_id (lock_ids st) = Some name ->
    extend_outcome name (Dict.keys (lock_ids st)) (Ret tt) tx ->
    name <> target_mapset_name self ->
    step_outcome steps lock_id st
      (rm, st',
       EvTerm (user_id self) (resource_id self) (Ret false)
         :: tx ++ [EvUpdate (MsgStep (step st) steps name
                               (target_mapset_name self));
                   EvLog (MsgStep (step st) steps name
                            (target_mapset_name self));
                   EvMerge name (target_mapset_name self) rm]).

(** The first two statements of [_merge_mapsets]. *)
Definition lock_phase : M W unit :=
  _check_lock_mapset (target_mapset_name self) ;;
  _check_lock_source_mapsets (request_data self).

(** The copies a run makes when nothing stops it: one per registry entry
    whose mapset is not the target, in registry order. *)
Definition copies (items : dict) : list (string * string) :=
  map (fun n => (n, target_mapset_name self))
    (filter (fun n => negb (String.eqb n (target_mapset_name self)))
       (Dict.values items)).

(** A registry built by [_check_lock_mapset] alone: no key twice, and every
    entry maps the lock id of a mapset to that mapset. *)
Definition registry_ok (d : dict) : Prop :=
  NoDup (Dict.keys d) /\ forall k v, In (k, v) d -> k = lock_id_of v.

(** The registry after acquiring [names] one after the other. *)
Definition registered (names : list string) (d : dict) : dict :=
  fold_left (fun d n => Dict.set (lock_id_of n) n d) names d.

(** What a whole run leaves behind. *)
Record run_result := mkRun {
  outcome : res unit;
  exec_trace : list event;
  cleanup_outcome : res unit;
  cleanup_trace : list event;
  final : state W
}.

(** Modelled from the spec: the [run] method of the base class
    [AsyncPersistentProcessing], which is not part of this file.  Section 4.4
    and section 7 of the specification: [_execute] runs, any exception it
    raises unwinds to the runner, and [_final_cleanup] is called exactly once
    afterwards whatever the outcome. *)
Definition run (st : state W) : run_result :=
  match _execute st with
  | (r, st1, t1) =>
      match _final_cleanup st1 with
      | (c, st2, t2) => mkRun r t1 c t2 st2
      end
  end.

End Merging.

(** ** Reading a trace *)

Definition is_granted (r : res Z) : bool :=
  match r with
  | Ret z => negb (z =? 0)
  | Raise _ => false
  end.

(** The lock ids of all lock calls, in order. *)
Definition lock_calls (t : list event) : list string :=
  flat_map (fun e => match e with EvLock k _ _ => [k] | _ => [] end) t.

(** The lock ids of the lock calls that succeeded. *)
Definition granted (t : list event) : list string :=
  flat_map (fun e => match e with
                     | EvLock k _ r => if is_granted r then [k] else []
                     | _ => []
                     end) t.

(** The (source, target) pairs of all merge-copy invocations, in order. *)
Definition merge_calls (t : list event) : list (string * string) :=
  flat_map (fun e => match e with EvMerge s g _ => [(s, g)] | _ => [] end) t.

(** The merge-copy invocations that returned. *)
Definition merged (t : list event) : list (string * string) :=
  flat_map (fun e => match e with
                     | EvMerge s g (Ret _) => [(s, g)]
                     | _ => []
                     end) t.

Definition unlock_calls (t : list event) : list string :=
  flat_map (fun e => match e with EvUnlock k _ => [k] | _ => [] end) t.

Definition log_calls (t : list event) : list message :=
  flat_map (fun e => match e with EvLog m => [m] | _ => [] end) t.

Definition polls (t : list event) : list (res bool) :=
  flat_map (fun e => match e with EvTerm _ _ r => [r] | _ => [] end) t.

(** The call behind an event did what the caller hoped for: it returned, an
    existence check said yes, a lock or an extension was granted, the
    termination flag was not set. *)
Definition ev_ok (e : event) : bool :=
  match e with
  | EvSetup (Ret _) => true
  | EvCheck _ (Ret b) => b
  | EvLock _ _ r => is_granted r
  | EvExtend _ _ r => is_granted r
  | EvUnlock _ (Ret _) => true
  | EvTerm _ _ (Ret b) => negb b
  | EvMerge _ _ (Ret _) => true
  | EvUpdate _ => true
  | EvLog _ => true
  | EvParentCleanup (Ret _) => true
  | _ => false
  end.

(** The call behind an event returned (whatever it returned). *)
Definition ev_returned (e : event) : bool :=
  match e with
  | EvSetup (Raise _) | EvCheck _ (Raise _) | EvLock _ _ (Raise _)
  | EvExtend _ _ (Raise _) | EvUnlock _ (Raise _) | EvTerm _ _ (Raise _)
  | EvMerge _ _ (Raise _) | EvParentCleanup (Raise _) => false
  | _ => true
  end.

Definition is_extend (e : event) : bool :=
  match e with
  | EvExtend _ _ _ => true
  | _ => false
  end.

Definition is_acquire (e : event) : bool :=
  match e with
  | EvCheck _ _ | EvLock _ _ _ | EvLog _ => true
  | _ => false
  end.

(** The step numbers of the progress messages agree with a counter that
    starts at [c] and goes up by one at every merge-copy invocation. *)
Fixpoint steps_shown (c : Z) (t : list event) : Prop :=
  match t with
  | [] => True
  | EvUpdate (MsgStep s _ _ _) :: t' => s = c /\ steps_shown c t'
  | EvMerge _ _ _ :: t' => steps_shown (c + 1) t'
  | _ :: t' => steps_shown c t'
  end.

(** What the merge loop, or a part of it, keeps and shows whatever its
    outcome: the registry is not written, no lock or unlock call is made, the
    step counter goes up by one per merge-copy invocation and the progress
    messages show it, and every copy is from a mapset other than the target
    into the target. *)
Definition loop_frame {W} (self : Self) (st : state W)
  (x : res unit * state W * list event) : Prop :=
  match x with
  | (r, st', t) =>
      lock_ids st' = lock_ids st
      /\ lock_calls t = [] /\ granted t = [] /\ unlock_calls t = []
      /\ step st' = step st + Z.of_nat (length (merge_calls t))
      /\ steps_shown (step st) t
      /\ (forall s g, In (s, g) (merge_calls t) ->
            s <> target_mapset_name self /\ g = target_mapset_name self)
      /\ (r = Ret tt -> merged t = merge_calls t)
  end.

(** What the acquisition of locks, or a part of it, keeps and shows whatever
    its outcome: only existence checks, lock calls and log lines happen, the
    step counter is not written, a well-formed registry stays well-formed,
    and the keys of the registry are the old ones and the granted ones. *)
Definition lock_frame {W} (self : Self) (st : state W)
  (x : res unit * state W * list event) : Prop :=
  match x with
  | (r, st', t) =>
      forallb is_acquire t = true
      /\ step st' = step st
      /\ (registry_ok self (lock_ids st) -> registry_ok self (lock_ids st'))
      /\ (forall k, In k (Dict.keys (lock_ids st')) <->
                    In k (Dict.keys (lock_ids st)) \/ In k (granted t))
  end.

Definition is_loop_event (e : event) : bool :=
  match e with
  | EvTerm _ _ _ | EvExtend _ _ _ | EvUpdate _ | EvLog _ | EvMerge _ _ _ =>
      true
  | _ => false
  end.

Definition is_cleanup (e : event) : bool :=
  match e with
  | EvUnlock _ _ | EvParentCleanup _ => true
  | _ => false
  end.

(** ** More readers, for the behaviour of whole runs *)

(** The mapsets of all existence checks, in order. *)
Definition check_calls (t : list event) : list string :=
  flat_map (fun e => match e with EvCheck n _ => [n] | _ => [] end) t.

(** The lock ids of all extension calls, in order. *)
Definition extend_calls (t : list event) : list string :=
  flat_map (fun e => match e with EvExtend k _ _ => [k] | _ => [] end) t.

(** The progress messages sent with [_send_resource_update], in order. *)
Definition updates (t : list event) : list message :=
  flat_map (fun e => match e with EvUpdate m => [m] | _ => [] end) t.

(** The exception a call raised, if it raised. *)
Definition raised (e : event) : option exn :=
  match e with
  | EvSetup (Raise x) | EvCheck _ (Raise x) | EvLock _ _ (Raise x)
  | EvExtend _ _ (Raise x) | EvUnlock _ (Raise x) | EvTerm _ _ (Raise x)
  | EvMerge _ _ (Raise x) | EvParentCleanup (Raise x) => Some x
  | _ => None
  end.

(** A lock call asks for [process_time_limit * process_num_limit], an
    extension call for [process_time_limit * 2]. *)
Definition expiration_ok (self : Self) (e : event) : bool :=
  match e with
  | EvLock _ x _ => x =? process_time_limit self * process_num_limit self
  | EvExtend _ x _ => x =? process_time_limit self * 2
  | _ => true
  end.

(** Every lock call comes right after an existence check that said yes, and
    is for the lock id of the mapset that was checked; [prev] is the event
    before the trace. *)
Fixpoint lock_follows_check (self : Self) (prev : option event)
  (t : list event) : bool :=
  match t with
  | [] => true
  | e :: t' =>
      match e, prev with
      | EvLock k _ _, Some (EvCheck n (Ret true)) =>
          String.eqb k (lock_id_of self n)
      | EvLock _ _ _, _ => false
      | _, _ => true
      end && lock_follows_check self (Some e) t'
  end.


(** The names of [l] in order of first appearance, without those of [seen]:
    the order in which a dict keeps the keys assigned to it. *)
Fixpoint first_seen (seen l : list string) : list string :=
  match l with
  | [] => []
  | x :: l' =>
      if existsb (String.eqb x) seen then first_seen seen l'
      else x :: first_seen (x :: seen) l'
  end.

(** The registry entries of the mapsets [names]. *)
Definition entries (self : Self) (names : list string) : dict :=
  map (fun n => (lock_id_of self n, n)) names.

(** The progress messages of a merge loop over the mapsets [names] that
    starts with the counter at [s]. *)
Fixpoint progress (self : Self) (steps s : Z) (names : list string)
  : list message :=
  match names with
  | [] => []
  | n :: ns =>
      MsgStep s steps n (target_mapset_name self)
        :: progress self steps
             (if String.eqb n (target_mapset_name self) then s else s + 1) ns
  end.

(** ** A simulated outside world

    A small lock service and scripted collaborators, for running the class on
    concrete jobs. *)

Module Sim.

Record script := mkScript {
  missing : list string;       (* mapsets the existence check denies *)
  reentrant : bool;            (* a held key is granted again *)
  busy : list string;          (* keys held by somebody else *)
  lost : list string;          (* keys whose extension is refused *)
  terminate_at : option nat;   (* the poll that finds the flag set *)
  broken : list string;        (* sources whose copy raises *)
  unlock_refused : list string;(* keys whose unlock returns 0 *)
  unlock_raises : list string  (* keys whose unlock raises *)
}.

Record sim := mkSim {
  held : list string;
  polled : nat
}.

Definition mem (x : string) (l : list string) : bool :=
  existsb (String.eqb x) l.

Definition env (sc : script) : Env sim := {|
  _setup := fun w => (Ret tt, w);
  _check_mapset := fun w n => (Ret (negb (mem n (missing sc))), w);
  lock := fun w k _ =>
    if mem k (busy sc) || (negb (reentrant sc) && mem k (held w))
    then (Ret 0, w)
    else (Ret 1, mkSim (k :: held w) (polled w));
  extend := fun w k _ => (Ret (if mem k (lost sc) then 0 else 1), w);
  unlock := fun w k =>
    if mem k (unlock_raises sc) then (Raise (External "unlock"), w)
    else if mem k (unlock_refused sc) then (Ret 0, w)
    else (Ret 1, mkSim (filter (fun h => negb (String.eqb h k)) (held w))
                   (polled w));
  get_termination := fun w _ _ =>
    (Ret (match terminate_at sc with
          | Some n => Nat.eqb n (polled w)
          | None => false
          end),
     mkSim (held w) (S (polled w)));
  _merge_mapset_into_target := fun w s _ =>
    if mem s (broken sc) then (Raise (External "copy"), w) else (Ret tt, w);
  parent_final_cleanup := fun w => (Ret tt, w)
|}.

(** Nothing fails, held keys are granted again. *)
Definition easy : script := mkScript [] true [] [] None [] [] [].

(** Nothing fails, but a held key is refused like any locked resource. *)
Definition strict : script := mkScript [] false [] [] None [] [] [].

(** The copy of mapset B raises. *)
Definition copy_fails : script := mkScript [] true [] [] None ["B"] [] [].



(** The unlock of mapset A returns 0. *)
Definition unlock_refuses : script :=
  mkScript [] true [] [] None [] ["g/l/A"] [].

(** The unlock of mapset A raises. *)
Definition unlock_fails : script :=
  mkScript [] true [] [] None [] [] ["g/l/A"].

Definition start : sim := mkSim [] 0.

Definition job (target : string) (sources : list string) : Self :=
  mkSelf "g" "l" target sources 10 4 "u" "r".

Definition go (sc : script) (target : string) (sources : list string)
  : run_result :=
  run (env sc) (job target sources) (init_state start).

End Sim.

(** ** Four sentences of the specification, as they are worded

    Each is refuted below on a concrete run. *)

(** "The number of unlock calls during cleanup equals the number of
    successful lock calls." *)
Definition locks_balance {W} (r : run_result (W := W)) : Prop :=
  length (unlock_calls (cleanup_trace r)) = length (granted (exec_trace r)).


(** "Increment stepCount only after a successful merge": the counter is
    never ahead of the merge-copy invocations that returned. *)
Definition step_follows_merged {W} (r : run_result (W := W)) : Prop :=
  step (final r) <= 1 + Z.of_nat (length (merged (exec_trace r))).

(** "A failure to unlock one key must not prevent attempting to unlock the
    rest; such failures are logged, not raised." *)
Definition cleanup_is_best_effort {W} (r : run_result (W := W)) : Prop :=
  unlock_calls (cleanup_trace r) = Dict.keys (lock_ids (final r))
  /\ cleanup_outcome r = Ret tt
  /\ (forall k z, In (EvUnlock k z) (cleanup_trace r) ->
         is_granted z = false -> log_calls (cleanup_trace r) <> []).

(** * Facts *)

(** ** The registry *)

Module DictFacts.

Import Dict.

Lemma get_set_same k v d : get k (set k v d) = Some v.
Proof.
  induction d as [|[k' v'] d IH]; simpl.
  - now rewrite String.eqb_refl.
  - destruct (String.eqb k k') eqn:E; simpl; rewrite ?String.eqb_refl, ?E; auto.
Qed.

Lemma get_set_other k k' v d : k' <> k -> get k' (set k v d) = get k' d.
Proof.
  intros N. induction d as [|[k0 v0] d IH]; simpl.
  - destruct (String.eqb_spec k' k); congruence.
  - destruct (String.eqb_spec k k0) as [->|]; simpl.
    + destruct (String.eqb_spec k' k0); congruence.
    + now rewrite IH.
Qed.

Lemma mem_In k d : mem k d = true <-> In k (keys d).
Proof.
  unfold mem. rewrite existsb_exists. split.
  - intros (x & Hx & E). apply String.eqb_eq in E. now subst.
  - intros H. exists k. split; [assumption | apply String.eqb_refl].
Qed.

Lemma keys_set k v d :
  keys (set k v d) = if mem k d then keys d else keys d ++ [k].
Proof.
  induction d as [|[k' v'] d IH]; simpl; [reflexivity|].
  unfold mem in *. simpl.
  destruct (String.eqb_spec k k') as [->|]; simpl; [reflexivity|].
  rewrite IH. now destruct (existsb _ _).
Qed.

Lemma In_keys_set k v d x : In x (keys (set k v d)) <-> x = k \/ In x (keys d).
Proof.
  rewrite keys_set. destruct (mem k d) eqn:E.
  - apply mem_In in E. split; [tauto | intros [->|]; assumption].
  - rewrite in_app_iff. simpl. split; intros; intuition congruence.
Qed.

Lemma NoDup_keys_set k v d : NoDup (keys d) -> NoDup (keys (set k v d)).
Proof.
  intros H. rewrite keys_set. destruct (mem k d) eqn:E; [assumption|].
  apply NoDup_app; [assumption | repeat constructor; simpl; tauto |].
  intros x Hx [<-|[]]. apply mem_In in Hx. congruence.
Qed.

Lemma In_set k v d x y :
  In (x, y) (set k v d) -> (x = k /\ y = v) \/ In (x, y) d.
Proof.
  induction d as [|[k' v'] d IH]; simpl.
  - intros [E|[]]. inversion E. auto.
  - destruct (String.eqb_spec k k') as [->|]; simpl.
    + intros [E|H]; [inversion E; auto | auto].
    + intros [E|H]; [auto | destruct (IH H); auto].
Qed.

Lemma get_In k v d : NoDup (keys d) -> In (k, v) d -> get k d = Some v.
Proof.
  induction d as [|[k' v'] d IH]; simpl; [tauto|].
  intros ND [E|H].
  - inversion E; subst. now rewrite String.eqb_refl.
  - inversion ND as [|? ? Hn ND']; subst.
    destruct (String.eqb_spec k k') as [->|]; [|auto].
    exfalso. apply Hn. now apply (in_map fst) in H.
Qed.

End DictFacts.

(** ** Traces *)

Lemma lock_calls_app a b : lock_calls (a ++ b) = lock_calls a ++ lock_calls b.
Proof. apply flat_map_app. Qed.

Lemma granted_app a b : granted (a ++ b) = granted a ++ granted b.
Proof. apply flat_map_app. Qed.

Lemma merge_calls_app a b :
  merge_calls (a ++ b) = merge_calls a ++ merge_calls b.
Proof. apply flat_map_app. Qed.

Lemma merged_app a b : merged (a ++ b) = merged a ++ merged b.
Proof. apply flat_map_app. Qed.

Lemma unlock_calls_app a b :
  unlock_calls (a ++ b) = unlock_calls a ++ unlock_calls b.
Proof. apply flat_map_app. Qed.

Lemma log_calls_app a b : log_calls (a ++ b) = log_calls a ++ log_calls b.
Proof. apply flat_map_app. Qed.

Lemma polls_app a b : polls (a ++ b) = polls a ++ polls b.
Proof. apply flat_map_app. Qed.

Lemma is_granted_nonzero z : z <> 0 -> is_granted (Ret z) = true.
Proof. intros H. simpl. now destruct (Z.eqb_spec z 0). Qed.


Section MergingFacts.

Context {W : Type}.
Variable env : Env W.
Variable self : Self.

Lemma lock_id_of_inj a b : lock_id_of self a = lock_id_of self b -> a = b.
Proof.
  unfold lock_id_of.
  assert (inj : forall p x y, (p ++ x)%string = (p ++ y)%string -> x = y).
  { induction p as [|c p IH]; simpl; intros x y E; [assumption|].
    inversion E. auto. }
  intros E. apply inj in E. simpl in E. inversion E as [E'].
  apply inj in E'. simpl in E'. now inversion E'.
Qed.

Lemma for_each_cons {A} (x : A) xs (body : A -> M W unit) st :
  for_each (x :: xs) body st =
  match body x st with
  | (Ret _, st1, t1) =>
      match for_each xs body st1 with
      | (r, st2, t2) => (r, st2, t1 ++ t2)
      end
  | (Raise e, st1, t1) => (Raise e, st1, t1)
  end.
Proof. reflexivity. Qed.

(** *** Extending the locks *)

Lemma extend_loop_outcome name ks : forall st,
  match for_each ks (extend_lock env self name) st with
  | (r, st', t) =>
      extend_outcome self name ks r t
      /\ lock_ids st' = lock_ids st /\ step st' = step st
  end.
Proof.
  induction ks as [|k ks IH]; intros st.
  - cbn. repeat split. constructor.
  - rewrite for_each_cons. unfold extend_lock at 1, bind, call, ret, raise.
    destruct (extend env (world st) k _) as [[z|e] w]; cbn.
    + destruct (Z.eqb_spec z 0) as [->|N]; cbn.
      * repeat split. apply ext_refused.
      * specialize (IH (with_world st w)).
        destruct (for_each ks _ (with_world st w)) as [[r st'] t].
        destruct IH as (O & L & S). repeat split; [|assumption..].
        now apply ext_granted.
    + repeat split. apply ext_raised.
Qed.

Lemma extend_locks_outcome name st :
  match extend_locks env self name st with
  | (r, st', t) =>
      extend_outcome self name (Dict.keys (lock_ids st)) r t
      /\ lock_ids st' = lock_ids st /\ step st' = step st
  end.
Proof.
  unfold extend_locks, bind, get_lock_ids.
  pose proof (extend_loop_outcome name (Dict.keys (lock_ids st)) st) as H.
  destruct (for_each _ _ st) as [[r st'] t]. now rewrite app_nil_l.
Qed.

Lemma extend_outcome_quiet name ks r t :
  extend_outcome self name ks r t -> forallb is_extend t = true.
Proof. induction 1; cbn; auto. Qed.

Lemma extend_outcome_ok name ks r t :
  extend_outcome self name ks r t ->
  (forallb ev_ok t = true <-> r = Ret tt).
Proof.
  induction 1 as [|k ks z r t Hz _ IH| |]; cbn.
  - tauto.
  - destruct (Z.eqb_spec z 0); [contradiction|]. cbn. exact IH.
  - split; discriminate.
  - split; discriminate.
Qed.


(** A trace made of events of one kind shows nothing to a reader that
    ignores that kind. *)
Lemma flat_map_quiet {B} (P : event -> bool) (f : event -> list B) t :
  (forall e, P e = true -> f e = []) ->
  forallb P t = true -> flat_map f t = [].
Proof.
  intros Hf. induction t as [|e t IH]; cbn; [reflexivity|].
  intros H. apply andb_prop in H as [He Ht]. now rewrite (Hf e He), IH.
Qed.

Lemma steps_shown_quiet (P : event -> bool) c t :
  (forall e, P e = true ->
     match e with EvUpdate _ | EvMerge _ _ _ => False | _ => True end) ->
  forallb P t = true -> steps_shown c t.
Proof.
  intros HP. induction t as [|e t IH]; cbn; [trivial|].
  intros H. apply andb_prop in H as [He Ht]. specialize (HP e He).
  destruct e; try contradiction; auto.
Qed.

Lemma steps_shown_app c a b :
  steps_shown c (a ++ b) <->
  steps_shown c a /\ steps_shown (c + Z.of_nat (length (merge_calls a))) b.
Proof.
  revert c. induction a as [|e a IH]; intros c.
  - cbn. rewrite Z.add_0_r. tauto.
  - destruct e as [ | | | | | | | m | | ]; try destruct m;
      cbn [app steps_shown]; rewrite IH; unfold merge_calls;
      cbn [flat_map app length]; try tauto.
    rewrite Nat2Z.inj_succ, <- Z.add_1_l, Z.add_assoc. tauto.
Qed.

(** *** One iteration of the merge loop *)

Lemma merge_step_outcome steps k st :
  step_outcome self steps k st (merge_step env self steps k st).
Proof.
  unfold merge_step, bind at 1, call.
  destruct (get_termination env (world st) _ _) as [[[|]|e] w].
  - cbn. now apply so_terminated.
  - unfold bind, ret, raise, get_lock_ids, get_step, emit, set_step, call,
      append_mapsets_to_merge.
    cbn [lock_ids with_world step world mapsets_to_merge].
    destruct (Dict.get k (lock_ids st)) as [name|] eqn:G;
      [|now apply so_key_error].
    match goal with
    | |- context [extend_locks env self name ?s] =>
        pose proof (extend_locks_outcome name s) as X;
        destruct (extend_locks env self name s) as [[[[]|e] sx] tx]
    end; cbn [lock_ids step] in X; destruct X as (O & L & S).
    + cbn [with_world lock_ids step] in L, S, O.
      destruct (String.eqb_spec name (target_mapset_name self)) as [E|N];
        cbn [negb].
      * cbn [app]. rewrite S. now apply so_skipped.
      * destruct (_merge_mapset_into_target env (world sx) name _)
          as [rm w'].
        cbn [app]. rewrite S. apply so_merged; cbn; auto; lia.
    + cbn [with_world lock_ids step] in L, S, O. cbn [app].
      now apply so_extend_failed with (name := name).
  - cbn. now apply so_poll_raised.
Qed.

(** *** Acquiring one lock *)

Lemma _check_lock_mapset_outcome name st :
  acquire_outcome self name st (_check_lock_mapset env self name st).
Proof.
  unfold _check_lock_mapset, bind, call, ret, raise, emit, set_lock_id.
  destruct (_check_mapset env (world st) name) as [[[|]|e] w]; simpl;
    [ | apply acq_missing | apply acq_check_raised ].
  destruct (lock env w _ _) as [[z|e] w']; simpl;
    [ | apply (acq_lock_raised self name st e w') ].
  destruct (Z.eqb_spec z 0) as [->|N]; simpl;
    [ apply (acq_refused self name st w')
    | now apply (acq_granted self name st z w') ].
Qed.

(** *** The merge loop *)

Lemma extend_reads tx :
  forallb is_extend tx = true ->
  lock_calls tx = [] /\ granted tx = [] /\ unlock_calls tx = []
  /\ merge_calls tx = [] /\ merged tx = [] /\ polls tx = []
  /\ forall c, steps_shown c tx.
Proof.
  intros H. repeat split;
    try (apply (flat_map_quiet is_extend); [|exact H];
         intros [] E; try discriminate E; reflexivity).
  intros c. apply (steps_shown_quiet is_extend); [|exact H].
  intros [] E; try discriminate E; exact I.
Qed.

Lemma extend_no_poll tx u rid b :
  forallb is_extend tx = true -> ~ In (EvTerm u rid b) tx.
Proof.
  intros H Hin. rewrite forallb_forall in H. apply H in Hin. discriminate.
Qed.

Lemma loop_frame_nil (st : state W) : loop_frame self st (Ret tt, st, []).
Proof. cbn. repeat split; auto; try lia; contradiction. Qed.

Lemma loop_frame_app (st st1 st2 : state W) t1 r t2 :
  loop_frame self st (Ret tt, st1, t1) ->
  loop_frame self st1 (r, st2, t2) ->
  loop_frame self st (r, st2, t1 ++ t2).
Proof.
  cbn. intros (L1 & A1 & B1 & C1 & S1 & Sh1 & M1 & G1)
    (L2 & A2 & B2 & C2 & S2 & Sh2 & M2 & G2).
  rewrite lock_calls_app, granted_app, unlock_calls_app, merge_calls_app,
    merged_app, A1, A2, B1, B2, C1, C2, length_app, Nat2Z.inj_add.
  repeat split; auto; try congruence; try lia.
  - apply steps_shown_app. split; [assumption|]. now rewrite <- S1.
  - apply in_app_iff in H as [H|H]; [apply (M1 _ _ H) | apply (M2 _ _ H)].
  - apply in_app_iff in H as [H|H]; [apply (M1 _ _ H) | apply (M2 _ _ H)].
  - intros E. now rewrite G1, G2.
Qed.

Lemma iteration_reads u rid tx l :
  forallb is_extend tx = true ->
  let t := EvTerm u rid (Ret false) :: tx ++ l in
  lock_calls t = lock_calls l /\ granted t = granted l
  /\ unlock_calls t = unlock_calls l /\ merge_calls t = merge_calls l
  /\ merged t = merged l
  /\ forall c, steps_shown c l -> steps_shown c t.
Proof.
  intros H t. destruct (extend_reads tx H) as (A & B & C & D & F & _ & Sh).
  subst t.
  change (EvTerm u rid (Ret false) :: tx ++ l)
    with ([EvTerm u rid (Ret false)] ++ tx ++ l).
  rewrite !lock_calls_app, !granted_app, !unlock_calls_app, !merge_calls_app,
    !merged_app, A, B, C, D, F.
  repeat split. intros c Hl. cbn [app steps_shown].
  apply steps_shown_app. rewrite D, Z.add_0_r. auto.
Qed.

(** Reads the trace [EvTerm .. :: tx ++ l] of the goal through
    [iteration_reads], given [X : extend_outcome .. tx]. *)
Ltac read_iteration X A B C D F Sh :=
  match type of X with
  | extend_outcome _ _ _ _ ?tx =>
      match goal with
      | |- context [tx ++ ?l] =>
          destruct (iteration_reads (user_id self) (resource_id self) tx l
                      (extend_outcome_quiet _ _ _ _ X))
            as (A & B & C & D & F & Sh)
      end
  end.

Lemma step_outcome_frame steps k (st : state W) x :
  step_outcome self steps k st x -> loop_frame self st x.
Proof.
  destruct 1 as [e st' L S|st' L S|st' L S G|name e st' tx L S G O
                |name st' tx L S G O E|name rm st' tx L S G O N];
    unfold loop_frame.
  1-3: cbn; repeat split; auto; try lia; contradiction.
  - rewrite <- (app_nil_r tx).
    destruct (iteration_reads (user_id self) (resource_id self) tx []
                (extend_outcome_quiet _ _ _ _ O)) as (A & B & C & D & F & Sh).
    rewrite A, B, C, D, F. cbn.
    repeat split; auto; try lia; try contradiction. now apply Sh.
  - read_iteration O A B C D F Sh.
    rewrite A, B, C, D, F. cbn.
    repeat split; auto; try lia; try contradiction. apply Sh. cbn. auto.
  - read_iteration O A B C D F Sh.
    rewrite A, B, C, D, F. cbn.
    repeat split; auto; try lia.
    + apply Sh. cbn. auto.
    + destruct H as [H|[]]. now inversion H; subst.
    + destruct H as [H|[]]. now inversion H.
    + intros ->. reflexivity.
Qed.

Lemma merge_loop_frame steps ks : forall st,
  loop_frame self st (for_each ks (merge_step env self steps) st).
Proof.
  induction ks as [|k ks IH]; intros st; [apply loop_frame_nil|].
  rewrite for_each_cons.
  pose proof (step_outcome_frame _ _ _ _ (merge_step_outcome steps k st)) as F.
  destruct (merge_step env self steps k st) as [[[[]|e] st1] t1]; [|exact F].
  specialize (IH st1). destruct (for_each ks _ st1) as [[r st2] t2].
  now apply loop_frame_app with (st1 := st1).
Qed.

Lemma copies_cons k v its :
  copies self ((k, v) :: its) =
  (if String.eqb v (target_mapset_name self) then []
   else [(v, target_mapset_name self)]) ++ copies self its.
Proof.
  unfold copies. cbn.
  now destruct (String.eqb v (target_mapset_name self)).
Qed.

Lemma copies_app a b : copies self (a ++ b) = copies self a ++ copies self b.
Proof.
  unfold copies, Dict.values. now rewrite map_app, filter_app, map_app.
Qed.


(** An iteration that returns has copied its mapset unless that is the
    target. *)
Lemma step_outcome_returned steps k v (st : state W) st' t :
  step_outcome self steps k st (Ret tt, st', t) ->
  Dict.get k (lock_ids st) = Some v ->
  merge_calls t = copies self [(k, v)].
Proof.
  intros O G. rewrite copies_cons, app_nil_r.
  remember (Ret tt, st', t) as x eqn:Ex.
  destruct O as [e s1 L S|s1 L S|s1 L S G'|name e s1 tx L S G' X
                |name s1 tx L S G' X E|name rm s1 tx L S G' X N];
    inversion Ex; subst st' t; clear Ex;
    assert (Ev : name = v) by congruence;
    read_iteration X A B C D F Sh; rewrite D; cbn;
    destruct (String.eqb_spec v (target_mapset_name self)); congruence.
Qed.

(** An iteration in which every call did what was hoped for returns, having
    copied its mapset unless that is the target. *)
Lemma step_outcome_ok steps k v (st : state W) r st' t :
  step_outcome self steps k st (r, st', t) ->
  Dict.get k (lock_ids st) = Some v ->
  forallb ev_ok t = true ->
  r = Ret tt /\ merge_calls t = copies self [(k, v)].
Proof.
  intros O G H. rewrite copies_cons, app_nil_r.
  remember (r, st', t) as x eqn:Ex.
  destruct O as [e s1 L S|s1 L S|s1 L S G'|name e s1 tx L S G' X
                |name s1 tx L S G' X E|name rm s1 tx L S G' X N];
    inversion Ex; subst r st' t; clear Ex;
    try discriminate H; try congruence;
    assert (name = v) by congruence; subst name;
    cbn [forallb ev_ok negb andb] in H;
    try (rewrite forallb_app in H; apply andb_prop in H as [H1 H2]).
  - apply (extend_outcome_ok _ _ _ _ X) in H. discriminate.
  - split; [reflexivity|].
    read_iteration X A B C D F Sh.
    rewrite D. cbn.
    destruct (String.eqb_spec v (target_mapset_name self)); congruence.
  - destruct rm as [[]|e]; [|discriminate H2]. split; [reflexivity|].
    read_iteration X A B C D F Sh.
    rewrite D. cbn.
    destruct (String.eqb_spec v (target_mapset_name self)); congruence.
Qed.

(** The termination flag ends the iteration that sees it, before any copy. *)
Lemma step_outcome_terminated steps k (st : state W) r st' t u rid :
  step_outcome self steps k st (r, st', t) ->
  In (EvTerm u rid (Ret true)) t ->
  r = Raise (AsyncProcessTermination (MsgTerminated (step st') steps))
  /\ merge_calls t = [] /\ merged t = [].
Proof.
  intros O H. remember (r, st', t) as x eqn:Ex.
  destruct O as [e s1 L S|s1 L S|s1 L S G'|name e s1 tx L S G' X
                |name s1 tx L S G' X E|name rm s1 tx L S G' X N];
    inversion Ex; subst r st' t; clear Ex;
    try (destruct H as [H|[]]; discriminate H).
  - rewrite S. auto.
  - exfalso. destruct H as [H|H]; [discriminate|].
    now apply (extend_no_poll _ _ _ _ (extend_outcome_quiet _ _ _ _ X)) in H.
  - exfalso. destruct H as [H|H]; [discriminate|].
    apply in_app_iff in H as [H|H].
    + now apply (extend_no_poll _ _ _ _ (extend_outcome_quiet _ _ _ _ X)) in H.
    + cbn in H. intuition discriminate.
  - exfalso. destruct H as [H|H]; [discriminate|].
    apply in_app_iff in H as [H|H].
    + now apply (extend_no_poll _ _ _ _ (extend_outcome_quiet _ _ _ _ X)) in H.
    + cbn in H. intuition discriminate.
Qed.


Lemma merge_loop_ok steps its : forall st,
  (forall k v, In (k, v) its -> Dict.get k (lock_ids st) = Some v) ->
  match for_each (Dict.keys its) (merge_step env self steps) st with
  | (r, st', t) =>
      forallb ev_ok t = true -> r = Ret tt /\ merge_calls t = copies self its
  end.
Proof.
  induction its as [|[k v] its IH]; intros st G.
  - cbn. auto.
  - unfold Dict.keys in *. cbn [map fst]. rewrite for_each_cons.
    pose proof (merge_step_outcome steps k st) as O.
    pose proof (step_outcome_frame _ _ _ _ O) as F.
    destruct (merge_step env self steps k st) as [[r1 st1] t1].
    assert (Gk : Dict.get k (lock_ids st) = Some v) by (apply G; now left).
    destruct r1 as [[]|e].
    + destruct F as (L & _).
      specialize (IH st1).
      destruct (for_each (map fst its) _ st1) as [[r2 st2] t2].
      intros H. rewrite forallb_app in H. apply andb_prop in H as [H1 H2].
      destruct (step_outcome_ok _ _ _ _ _ _ _ O Gk H1) as (_ & M1).
      destruct IH as (-> & M2); [|assumption|].
      { intros k' v' Hin. rewrite L. apply G. now right. }
      split; [reflexivity|].
      rewrite merge_calls_app, M1, M2.
      change ((k, v) :: its) with ([(k, v)] ++ its). now rewrite copies_app.
    + intros H. now destruct (step_outcome_ok _ _ _ _ _ _ _ O Gk H).
Qed.

Lemma merge_loop_terminated steps ks u rid : forall st,
  match for_each ks (merge_step env self steps) st with
  | (r, st', t) =>
      In (EvTerm u rid (Ret true)) t ->
      r = Raise (AsyncProcessTermination (MsgTerminated (step st') steps))
      /\ merged t = merge_calls t
  end.
Proof.
  induction ks as [|k ks IH]; intros st.
  - cbn. tauto.
  - rewrite for_each_cons.
    pose proof (merge_step_outcome steps k st) as O.
    pose proof (step_outcome_frame _ _ _ _ O) as F.
    destruct (merge_step env self steps k st) as [[r1 st1] t1].
    destruct r1 as [[]|e].
    + destruct F as (_ & _ & _ & _ & _ & _ & _ & Mg).
      specialize (IH st1).
      destruct (for_each ks _ st1) as [[r2 st2] t2].
      intros H. apply in_app_iff in H as [H|H].
      * now destruct (step_outcome_terminated _ _ _ _ _ _ _ _ O H).
      * destruct (IH H) as (-> & M2). split; [reflexivity|].
        now rewrite merged_app, merge_calls_app, Mg, M2.
    + intros H.
      destruct (step_outcome_terminated _ _ _ _ _ _ _ _ O H) as (-> & A & B).
      now rewrite A, B.
Qed.


(** *** Acquiring the locks *)

Lemma registry_ok_set name d :
  registry_ok self d ->
  registry_ok self (Dict.set (lock_id_of self name) name d).
Proof.
  intros (ND & HK). split; [now apply DictFacts.NoDup_keys_set|].
  intros k v H. apply DictFacts.In_set in H as [(-> & ->)|H]; auto.
Qed.

Lemma acquire_outcome_frame name (st : state W) x :
  acquire_outcome self name st x -> lock_frame self st x.
Proof.
  destruct 1 as [e w|w|e w|w|z w Hz]; unfold lock_frame;
    cbn [forallb is_acquire andb with_world lock_ids step granted flat_map
           is_granted app];
    (split; [reflexivity|]); (split; [reflexivity|]);
    try (split; [exact (fun H => H)|]; intros k; rewrite ?Z.eqb_refl; cbn;
         tauto).
  split; [now apply registry_ok_set|].
  intros k. rewrite DictFacts.In_keys_set.
  destruct (Z.eqb_spec z 0); [contradiction|]. cbn.
  intuition congruence.
Qed.

Lemma lock_frame_nil (st : state W) : lock_frame self st (Ret tt, st, []).
Proof.
  unfold lock_frame. cbn [forallb granted flat_map].
  split; [reflexivity|]. split; [reflexivity|]. split; [auto|].
  intros k. cbn. tauto.
Qed.

Lemma lock_frame_app (st st1 st2 : state W) t1 r t2 :
  lock_frame self st (Ret tt, st1, t1) ->
  lock_frame self st1 (r, st2, t2) ->
  lock_frame self st (r, st2, t1 ++ t2).
Proof.
  unfold lock_frame. intros (Q1 & S1 & R1 & K1) (Q2 & S2 & R2 & K2).
  rewrite forallb_app, Q1, Q2, granted_app.
  split; [reflexivity|]. split; [congruence|]. split; [auto|].
  intros k. rewrite K2, K1, in_app_iff. tauto.
Qed.

Lemma acquire_loop_frame names : forall st,
  lock_frame self st (for_each names (_check_lock_mapset env self) st).
Proof.
  induction names as [|n names IH]; intros st; [apply lock_frame_nil|].
  rewrite for_each_cons.
  pose proof (acquire_outcome_frame _ _ _ (_check_lock_mapset_outcome n st))
    as F.
  destruct (_check_lock_mapset env self n st) as [[[[]|e] st1] t1];
    [|exact F].
  specialize (IH st1). destruct (for_each names _ st1) as [[r st2] t2].
  now apply lock_frame_app with (st1 := st1).
Qed.

Lemma acquire_outcome_ok name (st : state W) r st' t :
  acquire_outcome self name st (r, st', t) ->
  forallb ev_ok t = true ->
  r = Ret tt
  /\ lock_calls t = [lock_id_of self name]
  /\ lock_ids st' = Dict.set (lock_id_of self name) name (lock_ids st).
Proof.
  intros O H. remember (r, st', t) as x eqn:Ex.
  destruct O as [e w|w|e w|w|z w Hz]; inversion Ex; subst r st' t;
    try discriminate H.
  auto.
Qed.

Lemma acquire_loop_ok names : forall st,
  match for_each names (_check_lock_mapset env self) st with
  | (r, st', t) =>
      forallb ev_ok t = true ->
      r = Ret tt
      /\ lock_calls t = map (lock_id_of self) names
      /\ lock_ids st' = registered self names (lock_ids st)
  end.
Proof.
  induction names as [|n names IH]; intros st; [cbn; auto|].
  rewrite for_each_cons.
  pose proof (_check_lock_mapset_outcome n st) as O.
  destruct (_check_lock_mapset env self n st) as [[r1 st1] t1].
  destruct r1 as [[]|e].
  - specialize (IH st1). destruct (for_each names _ st1) as [[r st2] t2].
    intros H. rewrite forallb_app in H. apply andb_prop in H as [H1 H2].
    destruct (acquire_outcome_ok _ _ _ _ _ O H1) as (_ & C1 & D1).
    destruct (IH H2) as (-> & C2 & D2).
    rewrite lock_calls_app, C1, C2, D2, D1. auto.
  - intros H. now destruct (acquire_outcome_ok _ _ _ _ _ O H).
Qed.

Lemma acquire_reads t :
  forallb is_acquire t = true ->
  unlock_calls t = [] /\ merge_calls t = [] /\ merged t = []
  /\ polls t = [] /\ (forall c, steps_shown c t)
  /\ (forall u rid b, ~ In (EvTerm u rid b) t)
  /\ (forall k ttl r, ~ In (EvExtend k ttl r) t).
Proof.
  intros H. repeat split;
    try (apply (flat_map_quiet is_acquire); [|exact H];
         intros [] E; try discriminate E; reflexivity).
  - intros c. apply (steps_shown_quiet is_acquire); [|exact H].
    intros [] E; try discriminate E; exact I.
  - intros u rid b Hin. rewrite forallb_forall in H. apply H in Hin.
    discriminate.
  - intros k ttl r Hin. rewrite forallb_forall in H. apply H in Hin.
    discriminate.
Qed.

Lemma _check_lock_source_mapsets_eq sources st :
  _check_lock_source_mapsets env self sources st =
  match sources with
  | [] => (Raise (AsyncProcessError MsgEmptySources), st, [])
  | _ :: _ => for_each sources (_check_lock_mapset env self) st
  end.
Proof.
  destruct sources as [|n l]; [reflexivity|].
  unfold _check_lock_source_mapsets, bind, ret. cbn [length Nat.eqb].
  now destruct (for_each (n :: l) _ st) as [[r st'] t].
Qed.

Lemma lock_phase_eq st :
  lock_phase env self st =
  match _check_lock_mapset env self (target_mapset_name self) st with
  | (Ret _, st1, t1) =>
      match _check_lock_source_mapsets env self (request_data self) st1 with
      | (r, st2, t2) => (r, st2, t1 ++ t2)
      end
  | (Raise e, st1, t1) => (Raise e, st1, t1)
  end.
Proof. reflexivity. Qed.

Lemma lock_phase_frame st : lock_frame self st (lock_phase env self st).
Proof.
  rewrite lock_phase_eq.
  pose proof (acquire_outcome_frame _ _ _
                (_check_lock_mapset_outcome (target_mapset_name self) st))
    as F.
  destruct (_check_lock_mapset env self _ st) as [[[[]|e] st1] t1];
    [|exact F].
  rewrite _check_lock_source_mapsets_eq.
  destruct (request_data self) as [|n l] eqn:E.
  - rewrite app_nil_r. exact F.
  - pose proof (acquire_loop_frame (n :: l) st1) as F2.
    destruct (for_each (n :: l) _ st1) as [[r st2] t2].
    now apply lock_frame_app with (st1 := st1).
Qed.

Lemma lock_phase_ok st :
  match lock_phase env self st with
  | (r, st', t) =>
      forallb ev_ok t = true ->
      request_data self <> [] ->
      r = Ret tt
      /\ lock_calls t =
           map (lock_id_of self) (target_mapset_name self :: request_data self)
      /\ lock_ids st' =
           registered self (target_mapset_name self :: request_data self)
             (lock_ids st)
  end.
Proof.
  rewrite lock_phase_eq.
  pose proof (_check_lock_mapset_outcome (target_mapset_name self) st) as O.
  destruct (_check_lock_mapset env self _ st) as [[r1 st1] t1].
  destruct r1 as [[]|e].
  - rewrite _check_lock_source_mapsets_eq.
    destruct (request_data self) as [|n l] eqn:E; [congruence|].
    pose proof (acquire_loop_ok (n :: l) st1) as A.
    destruct (for_each (n :: l) _ st1) as [[r st2] t2].
    intros H _. rewrite forallb_app in H. apply andb_prop in H as [H1 H2].
    destruct (acquire_outcome_ok _ _ _ _ _ O H1) as (_ & C1 & D1).
    destruct (A H2) as (-> & C2 & D2).
    rewrite lock_calls_app, C1, C2, D2, D1. auto.
  - intros H. now destruct (acquire_outcome_ok _ _ _ _ _ O H).
Qed.

(** *** The whole of [_merge_mapsets] and of a run *)

Lemma _merge_mapsets_eq st :
  _merge_mapsets env self st =
  match lock_phase env self st with
  | (Ret _, st1, t1) =>
      match for_each (Dict.keys (lock_ids st1))
              (merge_step env self (Z.of_nat (length (request_data self))))
              (mkState (lock_ids st1) 1 [] (world st1)) with
      | (r, st2, t2) => (r, st2, t1 ++ t2)
      end
  | (Raise e, st1, t1) => (Raise e, st1, t1)
  end.
Proof.
  rewrite lock_phase_eq. unfold _merge_mapsets. unfold bind at 1.
  destruct (_check_lock_mapset env self _ st) as [[[[]|e] st1] t1];
    [|reflexivity].
  unfold bind at 1.
  destruct (_check_lock_source_mapsets env self _ st1) as [[[[]|e] st2] t2];
    [|reflexivity].
  unfold bind, set_step, set_mapsets_to_merge, get_lock_ids.
  cbn [lock_ids step mapsets_to_merge world].
  destruct (for_each _ _ _) as [[r st3] t3]. cbn [app].
  now rewrite app_assoc.
Qed.

Lemma _execute_eq st :
  _execute env self st =
  match _setup env (world st) with
  | (Ret _, w) =>
      match _merge_mapsets env self (with_world st w) with
      | (r, st', t) => (r, st', EvSetup (Ret tt) :: t)
      end
  | (Raise e, w) => (Raise e, with_world st w, [EvSetup (Raise e)])
  end.
Proof.
  unfold _execute, bind, call.
  destruct (_setup env (world st)) as [[[]|e] w]; reflexivity.
Qed.

(** *** Final cleanup *)

Lemma unlock_loop_spec ks : forall st,
  match for_each ks (unlock_one env) st with
  | (c, st', t) =>
      lock_ids st' = lock_ids st
      /\ forallb is_cleanup t = true
      /\ (exists n, unlock_calls t = firstn n ks)
      /\ (forallb ev_returned t = true <-> c = Ret tt)
      /\ (c = Ret tt -> unlock_calls t = ks)
      /\ (forall k e, In (EvUnlock k (Raise e)) t -> c = Raise e)
  end.
Proof.
  induction ks as [|k ks IH]; intros st.
  - cbn. repeat split; auto; try tauto. now exists 0%nat.
  - rewrite for_each_cons. unfold unlock_one at 1, bind, call, ret.
    destruct (unlock env (world st) k) as [[z|e] w].
    + specialize (IH (with_world st w)).
      destruct (for_each ks _ (with_world st w)) as [[c st'] t].
      destruct IH as (L & Q & (n & P) & R & A & X).
      cbn [app forallb is_cleanup ev_returned andb unlock_calls flat_map].
      fold (unlock_calls t).
      split; [exact L|]. split; [exact Q|].
      split; [exists (S n); cbn; now rewrite P|].
      split; [exact R|]. split; [intros E; now rewrite (A E)|].
      intros k' e [H|H]; [discriminate|now apply (X k')].
    + cbn. repeat split; auto; try discriminate.
      * now exists 1%nat.
      * intros k' e' [H|[]]. now inversion H.
Qed.

Lemma _final_cleanup_spec st :
  match _final_cleanup env st with
  | (c, st', t) =>
      lock_ids st' = lock_ids st
      /\ forallb is_cleanup t = true
      /\ (exists n, unlock_calls t = firstn n (Dict.keys (lock_ids st)))
      /\ (forallb ev_returned t = true ->
            c = Ret tt /\ unlock_calls t = Dict.keys (lock_ids st))
      /\ (forall k e, In (EvUnlock k (Raise e)) t -> c = Raise e)
  end.
Proof.
  unfold _final_cleanup, bind at 1, call.
  destruct (parent_final_cleanup env (world st)) as [[[]|e] w].
  - unfold bind, get_lock_ids. cbn [lock_ids with_world].
    pose proof (unlock_loop_spec (Dict.keys (lock_ids st)) (with_world st w))
      as U.
    destruct (for_each _ _ (with_world st w)) as [[c st'] t].
    destruct U as (L & Q & P & R & A & X).
    cbn [app forallb is_cleanup ev_returned andb unlock_calls flat_map].
    fold (unlock_calls t).
    split; [exact L|]. split; [exact Q|]. split; [exact P|].
    split; [intros H; apply R in H; auto|].
    intros k e [H|H]; [discriminate|now apply (X k)].
  - cbn. repeat split; auto; try discriminate.
    + now exists 0%nat.
    + intros k e' [H|[]]. discriminate.
Qed.

Lemma cleanup_reads t :
  forallb is_cleanup t = true ->
  log_calls t = [] /\ lock_calls t = [] /\ merge_calls t = []
  /\ forall m, ~ In (EvUpdate m) t.
Proof.
  intros H. repeat split;
    try (apply (flat_map_quiet is_cleanup); [|exact H];
         intros [] E; try discriminate E; reflexivity).
  intros m Hin. rewrite forallb_forall in H. apply H in Hin. discriminate.
Qed.

Lemma steps_shown_at c pre s n m g post :
  steps_shown c (pre ++ EvUpdate (MsgStep s n m g) :: post) ->
  s = c + Z.of_nat (length (merge_calls pre)).
Proof. intros H. apply steps_shown_app in H as [_ H]. cbn in H. tauto. Qed.

(** What [_merge_mapsets] keeps and shows, whatever its outcome. *)
Lemma _merge_mapsets_summary st :
  match _merge_mapsets env self st with
  | (r, st', t) =>
      (registry_ok self (lock_ids st) -> registry_ok self (lock_ids st'))
      /\ (forall k, In k (Dict.keys (lock_ids st')) <->
                    In k (Dict.keys (lock_ids st)) \/ In k (granted t))
      /\ unlock_calls t = []
      /\ steps_shown 1 t
      /\ (polls t <> [] ->
           step st' = 1 + Z.of_nat (length (merge_calls t)))
      /\ (forall s g, In (s, g) (merge_calls t) ->
            s <> target_mapset_name self /\ g = target_mapset_name self)
      /\ (r = Ret tt -> merged t = merge_calls t)
      /\ (forall u rid, In (EvTerm u rid (Ret true)) t ->
            r = Raise (AsyncProcessTermination
                         (MsgTerminated (step st')
                            (Z.of_nat (length (request_data self)))))
            /\ merged t = merge_calls t
            /\ step st' = 1 + Z.of_nat (length (merge_calls t)))
  end.
Proof.
  rewrite _merge_mapsets_eq.
  pose proof (lock_phase_frame st) as F.
  destruct (lock_phase env self st) as [[[[]|e] st1] t1];
    destruct F as (Q & S & R & K);
    destruct (acquire_reads t1 Q) as (U1 & M1 & G1 & P1 & Sh1 & NT & NE).
  - set (steps := Z.of_nat (length (request_data self))).
    set (st1' := mkState (lock_ids st1) 1 [] (world st1)).
    pose proof (merge_loop_frame steps (Dict.keys (lock_ids st1)) st1') as F.
    pose proof (merge_loop_terminated steps (Dict.keys (lock_ids st1))) as T.
    specialize (fun u rid => T u rid st1').
    destruct (for_each _ _ st1') as [[r st2] t2].
    destruct F as (L2 & A2 & B2 & C2 & S2 & Sh2 & M2 & G2).
    cbn [lock_ids step] in L2, S2, Sh2.
    rewrite granted_app, unlock_calls_app, merge_calls_app, merged_app,
      B2, C2, U1, M1, G1, app_nil_r. cbn [app].
    split; [rewrite L2; exact R|]. split; [rewrite L2; exact K|].
    split; [reflexivity|].
    split; [apply steps_shown_app; split; [apply Sh1|];
            now rewrite M1, Z.add_0_r|].
    split; [intros _; exact S2|]. split; [exact M2|]. split; [exact G2|].
    intros u rid H. apply in_app_iff in H as [H|H]; [now apply NT in H|].
    destruct (T u rid H) as (-> & E). auto.
  - rewrite M1, G1. split; [exact R|]. split; [exact K|].
    split; [exact U1|]. split; [apply Sh1|].
    split; [intros H; now rewrite P1 in H|].
    split; [intros s g []|]. split; [reflexivity|].
    intros u rid H. now apply NT in H.
Qed.

Lemma registry_ok_get d k v :
  registry_ok self d -> In (k, v) d -> Dict.get k d = Some v.
Proof. intros (ND & _). now apply DictFacts.get_In. Qed.

(** A run of [_merge_mapsets] in which every call did what was hoped for. *)
Lemma _merge_mapsets_ok st :
  registry_ok self (lock_ids st) ->
  match _merge_mapsets env self st with
  | (r, st', t) =>
      forallb ev_ok t = true ->
      request_data self <> [] ->
      r = Ret tt
      /\ lock_calls t =
           map (lock_id_of self) (target_mapset_name self :: request_data self)
      /\ lock_ids st' =
           registered self (target_mapset_name self :: request_data self)
             (lock_ids st)
      /\ merge_calls t = copies self (lock_ids st')
  end.
Proof.
  intros R0. rewrite _merge_mapsets_eq.
  pose proof (lock_phase_frame st) as F.
  pose proof (lock_phase_ok st) as K.
  destruct (lock_phase env self st) as [[r1 st1] t1].
  destruct F as (Q & S & R & _).
  destruct (acquire_reads t1 Q) as (_ & M1 & _).
  destruct r1 as [[]|e].
  - set (steps := Z.of_nat (length (request_data self))).
    set (st1' := mkState (lock_ids st1) 1 [] (world st1)).
    pose proof (merge_loop_frame steps (Dict.keys (lock_ids st1)) st1') as F.
    pose proof (merge_loop_ok steps (lock_ids st1) st1') as A.
    destruct (for_each _ _ st1') as [[r st2] t2].
    destruct F as (L2 & A2 & _).
    cbn [lock_ids] in L2.
    intros H N. rewrite forallb_app in H. apply andb_prop in H as [H1 H2].
    destruct (K H1 N) as (_ & C1 & D1).
    destruct A as (-> & M2); [|assumption|].
    { intros k v Hin. cbn [lock_ids st1']. apply registry_ok_get; auto. }
    rewrite lock_calls_app, merge_calls_app, A2, M1, M2, L2, app_nil_r, C1.
    subst st1'. cbn [lock_ids app]. rewrite <- D1. auto.
  - intros H N. now destruct (K H N).
Qed.

Lemma registry_values_NoDup d :
  registry_ok self d -> NoDup (Dict.values d).
Proof.
  intros (ND & HK). apply (NoDup_map_inv (lock_id_of self)).
  replace (map (lock_id_of self) (Dict.values d)) with (Dict.keys d);
    [assumption|].
  unfold Dict.keys, Dict.values. rewrite map_map. apply map_ext_in.
  intros [k v] Hin. cbn. now apply HK.
Qed.


Lemma acquire_returned n st st1 t1 :
  _check_lock_mapset env self n st = (Ret tt, st1, t1) ->
  lock_ids st1 = Dict.set (lock_id_of self n) n (lock_ids st).
Proof.
  intros E. pose proof (_check_lock_mapset_outcome n st) as O.
  rewrite E in O. remember (Ret tt, st1, t1) as x eqn:Ex.
  destruct O; inversion Ex. reflexivity.
Qed.

Lemma acquire_loop_returned names : forall st st' t,
  for_each names (_check_lock_mapset env self) st = (Ret tt, st', t) ->
  lock_ids st' = registered self names (lock_ids st).
Proof.
  induction names as [|n names IH]; intros st st' t.
  - cbn. intros E. now inversion E.
  - rewrite for_each_cons.
    destruct (_check_lock_mapset env self n st) as [[[[]|e] st1] t1] eqn:E1;
      [|discriminate].
    destruct (for_each names _ st1) as [[r st2] t2] eqn:E2.
    intros E. inversion E; subst r st2 t. apply IH in E2. rewrite E2.
    apply acquire_returned in E1. rewrite E1. reflexivity.
Qed.

Lemma lock_phase_returned st st' t :
  lock_phase env self st = (Ret tt, st', t) ->
  request_data self <> []
  /\ lock_ids st' =
       registered self (target_mapset_name self :: request_data self)
         (lock_ids st).
Proof.
  rewrite lock_phase_eq.
  destruct (_check_lock_mapset env self _ st) as [[[[]|e] st1] t1] eqn:E1;
    [|discriminate].
  rewrite _check_lock_source_mapsets_eq.
  destruct (request_data self) as [|n l] eqn:E; [discriminate|].
  destruct (for_each (n :: l) _ st1) as [[r st2] t2] eqn:E2.
  intros H. inversion H; subst r st2 t. split; [discriminate|].
  apply acquire_loop_returned in E2. apply acquire_returned in E1.
  rewrite E2, E1. reflexivity.
Qed.




(** How a run is made of its parts. *)
Lemma run_cases w :
  let r := run env self (init_state w) in
  exists st1,
    _final_cleanup env st1 = (cleanup_outcome r, final r, cleanup_trace r)
    /\ ((exists e,
           outcome r = Raise e /\ exec_trace r = [EvSetup (Raise e)]
           /\ lock_ids st1 = [])
        \/ (exists w1 tm,
              _merge_mapsets env self (init_state w1) = (outcome r, st1, tm)
              /\ exec_trace r = EvSetup (Ret tt) :: tm)).
Proof.
  unfold run. rewrite _execute_eq.
  change (world (init_state w)) with w.
  destruct (_setup env w) as [[[]|e] w1];
    change (with_world (init_state w) w1) with (init_state w1).
  - destruct (_merge_mapsets env self (init_state w1)) as [[r st1] tm] eqn:E.
    exists st1.
    destruct (_final_cleanup env st1) as [[c st2] t2]. cbn.
    split; [reflexivity|]. right. now exists w1, tm.
  - exists (init_state w1).
    destruct (_final_cleanup env _) as [[c st2] t2]. cbn.
    split; [reflexivity|]. left. now exists e.
Qed.

(** The registry at the end of a run holds exactly the granted lock ids, each
    once, and a cleanup whose calls all return unlocks exactly those. *)
Lemma run_registry w :
  let r := run env self (init_state w) in
  NoDup (Dict.keys (lock_ids (final r)))
  /\ (forall k, In k (Dict.keys (lock_ids (final r))) <->
                In k (granted (exec_trace r)))
  /\ (exists n,
        unlock_calls (cleanup_trace r)
        = firstn n (Dict.keys (lock_ids (final r))))
  /\ (forallb ev_returned (cleanup_trace r) = true ->
        cleanup_outcome r = Ret tt
        /\ unlock_calls (cleanup_trace r) = Dict.keys (lock_ids (final r))).
Proof.
  intros r. destruct (run_cases w) as (st1 & C & H). fold r in C, H.
  pose proof (_final_cleanup_spec st1) as Cl. rewrite C in Cl.
  destruct Cl as (L & _ & P & A & _). rewrite L.
  assert (R0 : registry_ok self (@nil (string * string))).
  { split; [constructor|intros ? ? []]. }
  destruct H as [(e & O & T & L0)|(w1 & tm & E & T)]; rewrite T.
  - rewrite L0 in *. cbn. repeat split; auto; try tauto. constructor.
  - pose proof (_merge_mapsets_summary (init_state w1)) as Sm.
    rewrite E in Sm. destruct Sm as (R & K & _).
    cbn [granted flat_map app]. fold (granted tm).
    split; [now apply R|].
    split; [intros k; rewrite K; cbn; tauto|].
    split; assumption.
Qed.


(** With no source mapset requested, [_merge_mapsets] is the acquisition of
    the target lock followed, when that succeeds, by the empty-list error. *)
Lemma _merge_mapsets_empty st :
  request_data self = [] ->
  match _merge_mapsets env self st with
  | (r, st', t) =>
      exists r0,
        acquire_outcome self (target_mapset_name self) st (r0, st', t)
        /\ r = match r0 with
               | Ret _ => Raise (AsyncProcessError MsgEmptySources)
               | Raise e => Raise e
               end
  end.
Proof.
  intros E. rewrite _merge_mapsets_eq, lock_phase_eq.
  pose proof (_check_lock_mapset_outcome (target_mapset_name self) st) as O.
  destruct (_check_lock_mapset env self _ st) as [[[[]|e] st1] t1].
  - rewrite _check_lock_source_mapsets_eq, E, app_nil_r.
    now exists (Ret tt).
  - now exists (Raise e).
Qed.

Lemma set_fresh k v d :
  ~ In k (Dict.keys d) -> Dict.set k v d = d ++ [(k, v)].
Proof.
  induction d as [|[k' v'] d IH]; cbn; [reflexivity|].
  intros N. destruct (String.eqb_spec k k') as [->|_]; [tauto|].
  rewrite IH; tauto.
Qed.

Lemma registered_fresh names : forall d,
  NoDup names ->
  (forall n, In n names -> ~ In (lock_id_of self n) (Dict.keys d)) ->
  registered self names d
  = d ++ map (fun n => (lock_id_of self n, n)) names.
Proof.
  induction names as [|a names IH]; intros d ND F.
  - cbn. now rewrite app_nil_r.
  - inversion ND as [|? ? Ha ND']; subst. cbn [registered fold_left map].
    rewrite set_fresh by (apply F; now left).
    fold (registered self names (d ++ [(lock_id_of self a, a)])).
    rewrite IH; [now rewrite <- app_assoc|assumption|].
    intros n Hn Hin. unfold Dict.keys in Hin. rewrite map_app in Hin.
    apply in_app_iff in Hin as [Hin|[Hin|[]]].
    + apply (F n); [now right|assumption].
    + cbn in Hin. apply lock_id_of_inj in Hin. congruence.
Qed.

Lemma copies_fresh names :
  ~ In (target_mapset_name self) names ->
  copies self (map (fun n => (lock_id_of self n, n)) names)
  = map (fun s => (s, target_mapset_name self)) names.
Proof.
  intros N. unfold copies, Dict.values. rewrite map_map. cbn [snd].
  rewrite map_id. f_equal. apply forallb_filter_id. apply forallb_forall.
  intros n Hn. destruct (String.eqb_spec n (target_mapset_name self));
    [congruence|reflexivity].
Qed.

(** * The claims *)

(** C1, as amended: in every run whose cleanup calls all return, wherever
    the job failed, final cleanup issues exactly one unlock call for each
    distinct lock id that was granted during the run, in registry order; the
    number of unlock calls is therefore the number of distinct granted ids,
    and it is the number of successful lock calls when no id was granted
    twice. *)
Theorem C1_unlocks_match_granted_ids : forall w,
  let r := run env self (init_state w) in
  forallb ev_returned (cleanup_trace r) = true ->
  unlock_calls (cleanup_trace r) = Dict.keys (lock_ids (final r))
  /\ NoDup (unlock_calls (cleanup_trace r))
  /\ (forall k, In k (unlock_calls (cleanup_trace r)) <->
                In k (granted (exec_trace r)))
  /\ length (unlock_calls (cleanup_trace r))
     = length (nodup string_dec (granted (exec_trace r)))
  /\ (NoDup (granted (exec_trace r)) -> locks_balance r).
Proof.
  intros w r H. destruct (run_registry w) as (ND & K & _ & A).
  fold r in ND, K, A.
  destruct (A H) as (_ & U). unfold locks_balance. rewrite U.
  assert (P : Permutation (Dict.keys (lock_ids (final r)))
                (nodup string_dec (granted (exec_trace r)))).
  { apply NoDup_Permutation; [assumption|apply NoDup_nodup|].
    intros k. now rewrite nodup_In. }
  repeat split; auto; try (now apply K).
  - now apply Permutation_length.
  - intros G. rewrite (Permutation_length P).
    now rewrite (nodup_fixed_point string_dec G).
Qed.



(** C4: in every run of a job with a non-empty list of distinct source
    mapsets, none of them the target, in which every call did what was hoped
    for (existence confirmed, locks and extensions granted, no termination
    requested, copies returned), the run returns; the lock calls are one for
    the target followed by one per source in list order; the merge-copy
    invocations are one per source into the target, in list order, and all
    returned; and the registry holds the target and the sources in that
    order. *)
Theorem C4_successful_run_counts : forall w,
  let r := run env self (init_state w) in
  request_data self <> [] ->
  NoDup (request_data self) ->
  ~ In (target_mapset_name self) (request_data self) ->
  forallb ev_ok (exec_trace r) = true ->
  outcome r = Ret tt
  /\ lock_calls (exec_trace r)
     = lock_id_of self (target_mapset_name self)
         :: map (lock_id_of self) (request_data self)
  /\ merge_calls (exec_trace r)
     = map (fun s => (s, target_mapset_name self)) (request_data self)
  /\ merged (exec_trace r) = merge_calls (exec_trace r)
  /\ lock_ids (final r)
     = map (fun n => (lock_id_of self n, n))
         (target_mapset_name self :: request_data self).
Proof.
  intros w r Ne ND Nt H. subst r.
  destruct (run_cases w) as (st1 & C & [(e & O & T & L0)|(w1 & tm & E & T)]);
    rewrite T in *; [discriminate H|].
  cbn [forallb ev_ok andb] in H.
  pose proof (_merge_mapsets_ok (init_state w1)) as X.
  pose proof (_merge_mapsets_summary (init_state w1)) as Sm.
  rewrite E in X, Sm. destruct Sm as (_ & _ & _ & _ & _ & _ & G & _).
  destruct X as (O & Lc & D & M); [split; [constructor|intros ? ? []]|..];
    try assumption.
  pose proof (_final_cleanup_spec st1) as Cl. rewrite C in Cl.
  destruct Cl as (L & _). rewrite L.
  cbn [lock_calls merge_calls merged flat_map app].
  fold (lock_calls tm). fold (merge_calls tm). fold (merged tm).
  rewrite (registered_fresh (target_mapset_name self :: request_data self))
    in D; [|now constructor|intros ? _ []].
  cbn [init_state lock_ids Dict.empty app] in D.
  rewrite M, D, (G O), M, D. cbn [map].
  rewrite copies_cons, String.eqb_refl, copies_fresh by assumption.
  auto.
Qed.



(** C7, as amended: in every run of [_merge_mapsets] the progress messages
    show a step counter that starts at 1 and is one more than the number of
    merge-copy invocations made before the message; once the loop has been
    entered the counter itself is 1 plus the number of merge-copy invocations
    made, the increment coming with the invocation and not with its success;
    no invocation is ever made for the target mapset, so its iteration leaves
    the counter alone; and in a run that returns every invocation returned. *)
Theorem C7_step_counts_merge_invocations : forall st,
  match _merge_mapsets env self st with
  | (r, st', t) =>
      (forall pre s n m g post,
          t = pre ++ EvUpdate (MsgStep s n m g) :: post ->
          s = 1 + Z.of_nat (length (merge_calls pre)))
      /\ (polls t <> [] ->
           step st' = 1 + Z.of_nat (length (merge_calls t)))
      /\ (forall s g, In (s, g) (merge_calls t) ->
            s <> target_mapset_name self /\ g = target_mapset_name self)
      /\ (r = Ret tt -> merged t = merge_calls t)
  end.
Proof.
  intros st. pose proof (_merge_mapsets_summary st) as H.
  destruct (_merge_mapsets env self st) as [[r st'] t].
  destruct H as (_ & _ & _ & Sh & S & M & G & _).
  repeat split; auto; try (now apply (M s g)).
  intros pre s n m g post ->. now apply steps_shown_at in Sh.
Qed.

(** C8: in every run of [_merge_mapsets] the first call is the existence check
    of the target mapset, the second, if there is one, is the lock call for
    the target's lock id, and anything at all happens after that (in
    particular any check or lock call for a source mapset) only when that
    lock call was granted. *)
Theorem C8_target_locked_first : forall st,
  match _merge_mapsets env self st with
  | (r, st', t) =>
      (exists b, nth_error t 0 = Some (EvCheck (target_mapset_name self) b))
      /\ (forall i e, (1 <= i)%nat -> nth_error t i = Some e ->
            exists z,
              nth_error t 1 =
                Some (EvLock (lock_id_of self (target_mapset_name self))
                        (process_time_limit self * process_num_limit self) z)
              /\ ((2 <= i)%nat -> is_granted z = true))
  end.
Proof.
  intros st. rewrite _merge_mapsets_eq, lock_phase_eq.
  destruct (_check_lock_mapset_outcome (target_mapset_name self) st)
    as [e w|w|e w|w|z w Hz].
  1-4: (split; [eexists; reflexivity|]; intros [|[|[|i]]] ev Hi Hn;
        cbn in Hn; try lia; try discriminate;
        eexists; (split; [reflexivity|lia])).
  destruct (_check_lock_source_mapsets env self _ _) as [[[[]|e] st2] t2];
    [destruct (for_each _ _ _) as [[r st3] t3]|];
    (split; [eexists; reflexivity|]; intros i ev Hi Hn;
     eexists; (split; [reflexivity|]); intros _;
     now apply is_granted_nonzero).
Qed.

(** C9, as amended: [_final_cleanup] does not write the registry and logs
    nothing; after the cleanup of the base class it calls unlock for the
    registry's lock ids in registry order and drops what each call returns, so
    that when every call returns (whatever it returns, a refusal included)
    there is exactly one unlock call per registered id and the cleanup
    returns; an unlock call that raises ends the cleanup with that
    exception, the calls made so far being a prefix of the ids. *)
Theorem C9_final_cleanup_unlocks_registry : forall st,
  match _final_cleanup env st with
  | (c, st', t) =>
      lock_ids st' = lock_ids st
      /\ log_calls t = []
      /\ (exists n, unlock_calls t = firstn n (Dict.keys (lock_ids st)))
      /\ (forallb ev_returned t = true ->
            c = Ret tt /\ unlock_calls t = Dict.keys (lock_ids st))
      /\ (forall k e, In (EvUnlock k (Raise e)) t -> c = Raise e)
  end.
Proof.
  intros st. pose proof (_final_cleanup_spec st) as H.
  destruct (_final_cleanup env st) as [[c st'] t].
  destruct H as (L & Q & P & R & X).
  destruct (cleanup_reads t Q) as (Lg & _).
  auto.
Qed.

(** C10: [_check_lock_mapset] either fails and leaves the registry as it was
    (nothing having been granted), or succeeds after exactly one granted lock
    call and then the registry is the old one with the single entry
    [lock id -> mapset name] added at the end or overwritten in place; every
    other key keeps its value. *)
Theorem C10_check_lock_mapset_atomic : forall name st,
  match _check_lock_mapset env self name st with
  | (Raise _, st', t) =>
      lock_ids st' = lock_ids st /\ granted t = []
  | (Ret _, st', t) =>
      let k := lock_id_of self name in
      lock_ids st' = Dict.set k name (lock_ids st)
      /\ Dict.get k (lock_ids st') = Some name
      /\ (forall k', k' <> k ->
            Dict.get k' (lock_ids st') = Dict.get k' (lock_ids st))
      /\ Dict.keys (lock_ids st') =
           (if Dict.mem k (lock_ids st) then Dict.keys (lock_ids st)
            else Dict.keys (lock_ids st) ++ [k])
      /\ granted t = [k]
  end.
Proof.
  intros name st.
  destruct (_check_lock_mapset_outcome name st) as [ | | | |z w Hz];
    cbn [lock_ids with_world]; auto.
  repeat split.
  - apply DictFacts.get_set_same.
  - intros k' N. now apply DictFacts.get_set_other.
  - apply DictFacts.keys_set.
  - cbn. now destruct (Z.eqb_spec z 0).
Qed.

(** * More of the behaviour of a run *)

(** ** From the parts to the whole

    A property of the result and the trace that holds of every acquisition
    and of every iteration of the merge loop, and that passes from two
    computations to their sequence, holds of [_merge_mapsets] and of a run.
    The property may mention the registry [d] the merge loop works on. *)

Section Lifting.

Variable P : dict -> res unit -> list event -> Prop.

Hypothesis P_nil : forall d, P d (Ret tt) [].
Hypothesis P_app : forall d t1 r t2,
  P d (Ret tt) t1 -> P d r t2 -> P d r (t1 ++ t2).
Hypothesis P_acquire : forall d name (st : state W) r st' t,
  acquire_outcome self name st (r, st', t) -> P d r t.
Hypothesis P_step : forall steps k (st : state W) r st' t,
  step_outcome self steps k st (r, st', t) -> P (lock_ids st) r t.
Hypothesis P_empty : forall d, P d (Raise (AsyncProcessError MsgEmptySources)) [].

Lemma acquire_loop_lift d names : forall st,
  match for_each names (_check_lock_mapset env self) st with
  | (r, st', t) => P d r t
  end.
Proof.
  induction names as [|n names IH]; intros st; [apply P_nil|].
  rewrite for_each_cons.
  pose proof (_check_lock_mapset_outcome n st) as O.
  destruct (_check_lock_mapset env self n st) as [[r1 st1] t1].
  apply (P_acquire d) in O. destruct r1 as [[]|e]; [|exact O].
  specialize (IH st1). destruct (for_each names _ st1) as [[r st2] t2].
  now apply P_app.
Qed.

Lemma lock_phase_lift d st :
  match lock_phase env self st with
  | (r, st', t) => P d r t
  end.
Proof.
  rewrite lock_phase_eq.
  pose proof (_check_lock_mapset_outcome (target_mapset_name self) st) as O.
  destruct (_check_lock_mapset env self _ st) as [[r1 st1] t1].
  apply (P_acquire d) in O. destruct r1 as [[]|e]; [|exact O].
  rewrite _check_lock_source_mapsets_eq.
  destruct (request_data self) as [|n l].
  - apply P_app; [exact O|apply P_empty].
  - pose proof (acquire_loop_lift d (n :: l) st1) as A.
    destruct (for_each (n :: l) _ st1) as [[r st2] t2].
    now apply P_app.
Qed.

Lemma merge_loop_lift steps ks : forall st,
  match for_each ks (merge_step env self steps) st with
  | (r, st', t) => P (lock_ids st) r t
  end.
Proof.
  induction ks as [|k ks IH]; intros st; [apply P_nil|].
  rewrite for_each_cons.
  pose proof (merge_step_outcome steps k st) as O.
  pose proof (step_outcome_frame _ _ _ _ O) as F.
  destruct (merge_step env self steps k st) as [[r1 st1] t1].
  apply P_step in O. destruct r1 as [[]|e]; [|exact O].
  destruct F as (L & _).
  specialize (IH st1). destruct (for_each ks _ st1) as [[r st2] t2].
  rewrite L in IH. now apply P_app.
Qed.

Lemma _merge_mapsets_lift st :
  match _merge_mapsets env self st with
  | (r, st', t) => P (lock_ids st') r t
  end.
Proof.
  rewrite _merge_mapsets_eq.
  destruct (lock_phase env self st) as [[[[]|e] st1] t1] eqn:E.
  - set (steps := Z.of_nat (length (request_data self))).
    set (st1' := mkState (lock_ids st1) 1 [] (world st1)).
    pose proof (merge_loop_lift steps (Dict.keys (lock_ids st1)) st1') as A.
    pose proof (merge_loop_frame steps (Dict.keys (lock_ids st1)) st1') as F.
    destruct (for_each _ _ st1') as [[r st2] t2].
    destruct F as (L & _). rewrite L.
    apply P_app; [|exact A].
    pose proof (lock_phase_lift (lock_ids st1') st) as B. now rewrite E in B.
  - pose proof (lock_phase_lift (lock_ids st1) st) as B. now rewrite E in B.
Qed.

Hypothesis P_setup : forall d r, P d r [EvSetup r].

Lemma run_lift w :
  let r := run env self (init_state w) in
  P (lock_ids (final r)) (outcome r) (exec_trace r).
Proof.
  destruct (run_cases w) as (st1 & C & [(e & O & T & L0)|(w1 & tm & E & T)]);
    cbv zeta; rewrite T.
  - rewrite O. apply P_setup.
  - pose proof (_final_cleanup_spec st1) as Cl. rewrite C in Cl.
    destruct Cl as (L & _). rewrite L.
    pose proof (_merge_mapsets_lift (init_state w1)) as A. rewrite E in A.
    change (EvSetup (Ret tt) :: tm) with ([EvSetup (Ret tt)] ++ tm).
    apply P_app; [apply P_setup|exact A].
Qed.

End Lifting.

(** ** The first call that fails is the last call *)

Lemma extend_outcome_fail_fast name ks r t :
  extend_outcome self name ks r t -> forallb ev_ok (removelast t) = true.
Proof.
  induction 1 as [|k ks z r t Hz X IH| |]; cbn; auto.
  destruct t as [|e t]; [reflexivity|].
  cbn [forallb ev_ok is_granted]. rewrite IH.
  now destruct (Z.eqb_spec z 0).
Qed.

Lemma removelast_cons {A} (a : A) l :
  l <> [] -> removelast (a :: l) = a :: removelast l.
Proof. destruct l; [congruence|reflexivity]. Qed.

Lemma run_fail_fast w :
  let r := run env self (init_state w) in
  forallb ev_ok (removelast (exec_trace r)) = true
  /\ (outcome r = Ret tt -> forallb ev_ok (exec_trace r) = true).
Proof.
  apply (run_lift
           (fun _ r t => forallb ev_ok (removelast t) = true
                         /\ (r = Ret tt -> forallb ev_ok t = true))).
  - intros _. split; reflexivity.
  - intros _ t1 r t2 (A1 & B1) (A2 & B2). specialize (B1 eq_refl).
    destruct t2 as [|e t2].
    + rewrite app_nil_r. auto.
    + rewrite removelast_app by discriminate.
      rewrite !forallb_app, B1, A2. split; [reflexivity|].
      intros E. now rewrite (B2 E).
  - intros _ name st r st' t O. remember (r, st', t) as x eqn:Ex.
    destruct O as [e w'|w'|e w'|w'|z w' Hz]; inversion Ex; subst r st' t;
      cbn; split; try reflexivity; try discriminate;
      destruct (Z.eqb_spec z 0); try contradiction; reflexivity.
  - intros steps k st r st' t O. remember (r, st', t) as x eqn:Ex.
    destruct O as [e s1 L S|s1 L S|s1 L S G'|name e s1 tx L S G' X
                  |name s1 tx L S G' X E|name rm s1 tx L S G' X N];
      inversion Ex; subst r st' t; clear Ex;
      try (cbn; split; [reflexivity|discriminate]).
    + split; [|discriminate].
      destruct tx as [|e0 tx]; [reflexivity|].
      rewrite removelast_cons by discriminate. cbn [forallb ev_ok negb andb].
      apply (extend_outcome_fail_fast _ _ _ _ X).
    + pose proof (proj2 (extend_outcome_ok _ _ _ _ X) eq_refl) as Ok.
      rewrite removelast_cons by (now destruct tx).
      rewrite removelast_app by discriminate.
      cbn [forallb ev_ok negb andb removelast].
      rewrite !forallb_app, Ok. cbn. auto.
    + pose proof (proj2 (extend_outcome_ok _ _ _ _ X) eq_refl) as Ok.
      rewrite removelast_cons by (now destruct tx).
      rewrite removelast_app by discriminate.
      cbn [forallb ev_ok negb andb removelast].
      rewrite !forallb_app, Ok. cbn. split; [reflexivity|].
      now intros ->.
  - intros _. split; [reflexivity|discriminate].
  - intros _ [[]|e]; cbn; split; auto; discriminate.
Qed.

(** X1: in every run, every call [_execute] makes before its last one did
    what was hoped for: whatever fails first (setup, an existence check, a
    lock, a termination poll that finds the flag set, an extension, a copy)
    is the last thing [_execute] does. *)
Theorem X1_first_failure_is_last_call : forall w,
  forallb ev_ok (removelast (exec_trace (run env self (init_state w)))) = true.
Proof. intros w. apply (run_fail_fast w). Qed.

(** X2: a run returns normally exactly when the request names at least one
    source mapset and every call of [_execute] did what was hoped for. *)
Theorem X2_returns_iff_every_call_succeeds : forall w,
  let r := run env self (init_state w) in
  outcome r = Ret tt <->
  forallb ev_ok (exec_trace r) = true /\ request_data self <> [].
Proof.
  intros w r. subst r. split.
  - intros O. split; [now apply (run_fail_fast w)|].
    intros Em.
    destruct (run_cases w) as (st1 & C & [(e & O' & _)|(w1 & tm & E & _)]);
      [congruence|].
    pose proof (_merge_mapsets_empty (init_state w1) Em) as X.
    rewrite E, O in X. destruct X as ([[]|e] & _ & X); discriminate X.
  - intros (H & N).
    destruct (run_cases w) as (st1 & C & [(e & O & T & L0)|(w1 & tm & E & T)]);
      rewrite T in H; [discriminate H|].
    cbn [forallb ev_ok andb] in H.
    pose proof (_merge_mapsets_ok (init_state w1)) as X. rewrite E in X.
    destruct X as (O & _); auto. split; [constructor|intros ? ? []].
Qed.

(** ** What each kind of failure turns into *)

Lemma step_outcome_events steps k (st : state W) r st' t :
  step_outcome self steps k st (r, st', t) ->
  forallb is_loop_event t = true.
Proof.
  intros O.
  assert (Q : forall name ks r tx,
             extend_outcome self name ks r tx ->
             forallb is_loop_event tx = true).
  { intros name ks r0 tx X. apply extend_outcome_quiet in X.
    rewrite forallb_forall in *. intros e He. apply X in He.
    now destruct e. }
  remember (r, st', t) as x eqn:Ex.
  destruct O as [e s1 L S|s1 L S|s1 L S G'|name e s1 tx L S G' X
                |name s1 tx L S G' X E|name rm s1 tx L S G' X N];
    inversion Ex; subst r st' t; clear Ex; try reflexivity;
    cbn [forallb is_loop_event andb]; rewrite ?forallb_app, (Q _ _ _ _ X);
    reflexivity.
Qed.

Lemma ev_ok_not_raised e : ev_ok e = true -> raised e = None.
Proof. destruct e as [[]|? []|? ? []|? ? []|? []|? ? []|? ? []| | |[]];
         cbn; congruence. Qed.

Lemma run_error_names w :
  let r := run env self (init_state w) in
  (forall n, In (EvCheck n (Ret false)) (exec_trace r) ->
     outcome r = Raise (AsyncProcessError (MsgNotExist n)))
  /\ (forall n ttl, In (EvLock (lock_id_of self n) ttl (Ret 0)) (exec_trace r) ->
        outcome r = Raise (AsyncProcessError (MsgAlreadyLocked n)))
  /\ (forall ev e, In ev (exec_trace r) -> raised ev = Some e ->
        outcome r = Raise e).
Proof.
  apply (run_lift
           (fun _ r t =>
              (forall n, In (EvCheck n (Ret false)) t ->
                 r = Raise (AsyncProcessError (MsgNotExist n)))
              /\ (forall n ttl, In (EvLock (lock_id_of self n) ttl (Ret 0)) t ->
                    r = Raise (AsyncProcessError (MsgAlreadyLocked n)))
              /\ (forall ev e, In ev t -> raised ev = Some e -> r = Raise e))).
  - intros _. repeat split; intros; contradiction.
  - intros _ t1 r t2 (A1 & B1 & C1) (A2 & B2 & C2).
    split; [|split].
    + intros n H. apply in_app_iff in H as [H|H]; [|auto].
      specialize (A1 n H). discriminate.
    + intros n ttl H. apply in_app_iff in H as [H|H]; [|eauto].
      specialize (B1 n ttl H). discriminate.
    + intros ev e H R. apply in_app_iff in H as [H|H]; [|eauto].
      specialize (C1 ev e H R). discriminate.
  - intros _ name st r st' t O. remember (r, st', t) as x eqn:Ex.
    destruct O as [e w'|w'|e w'|w'|z w' Hz]; inversion Ex; subst r st' t;
      (split; [|split]).
    all: try (intros n H; cbn in H; intuition congruence).
    all: try (intros n ttl H; cbn in H; intuition congruence).
    all: try (intros ev e0 H R; cbn in H;
              repeat (destruct H as [<-|H]; [cbn in R; congruence|]);
              contradiction).
    intros n ttl [H|[H|[]]]; [discriminate|].
    inversion H as [[K T]]. apply lock_id_of_inj in K. now subst.
  - intros steps k st r st' t O.
    pose proof (step_outcome_events _ _ _ _ _ _ O) as Q.
    rewrite forallb_forall in Q.
    split; [|split].
    + intros n H. apply Q in H. discriminate.
    + intros n ttl H. apply Q in H. discriminate.
    + intros ev e0 H R. remember (r, st', t) as x eqn:Ex.
      destruct O as [e s1 L S|s1 L S|s1 L S G'|name e s1 tx L S G' X
                    |name s1 tx L S G' X E|name rm s1 tx L S G' X N];
        inversion Ex; subst r st' t; clear Ex.
      * destruct H as [<-|[]]. cbn in R. congruence.
      * destruct H as [<-|[]]. discriminate R.
      * destruct H as [<-|[]]. discriminate R.
      * destruct H as [<-|H]; [discriminate R|].
        clear - X H R. induction X as [|k ks z r tx Hz X IH| |].
        -- contradiction.
        -- destruct H as [<-|H]; [discriminate R|auto].
        -- destruct H as [<-|[]]. discriminate R.
        -- destruct H as [<-|[]]. cbn in R. congruence.
      * exfalso. pose proof (proj2 (extend_outcome_ok _ _ _ _ X) eq_refl) as Ok.
        rewrite forallb_forall in Ok.
        destruct H as [<-|H]; [discriminate R|].
        apply in_app_iff in H as [H|H].
        -- apply Ok, ev_ok_not_raised in H. congruence.
        -- cbn in H. intuition (subst; discriminate).
      * pose proof (proj2 (extend_outcome_ok _ _ _ _ X) eq_refl) as Ok.
        rewrite forallb_forall in Ok.
        destruct H as [<-|H]; [discriminate R|].
        apply in_app_iff in H as [H|H].
        -- apply Ok, ev_ok_not_raised in H. congruence.
        -- cbn in H. destruct H as [<-|[<-|[<-|[]]]]; try discriminate R.
           destruct rm; cbn in R; congruence.
  - intros _. repeat split; intros; contradiction.
  - intros _ r. repeat split.
    + intros n [H|[]]. discriminate.
    + intros n ttl [H|[]]. discriminate.
    + intros ev e [<-|[]] R. destruct r; cbn in R; congruence.
Qed.

(** X3: in every run, an existence check that says no ends the run with the
    error "does not exist" naming the mapset checked, and a lock call that is
    refused (returns 0) ends it with the error "already locked" naming the
    mapset whose lock id was asked for. *)
Theorem X3_acquisition_errors_name_the_mapset : forall w,
  let r := run env self (init_state w) in
  (forall n, In (EvCheck n (Ret false)) (exec_trace r) ->
     outcome r = Raise (AsyncProcessError (MsgNotExist n)))
  /\ (forall n ttl,
        In (EvLock (lock_id_of self n) ttl (Ret 0)) (exec_trace r) ->
        outcome r = Raise (AsyncProcessError (MsgAlreadyLocked n))).
Proof. intros w. destruct (run_error_names w) as (A & B & _). auto. Qed.

(** X4: in every run, an exception raised inside a collaborator that
    [_execute] calls (setup, existence check, lock, termination poll,
    extension, copy) is neither caught nor replaced: it is the outcome of
    [_execute]. *)
Theorem X4_collaborator_exceptions_propagate : forall w ev e,
  let r := run env self (init_state w) in
  In ev (exec_trace r) -> raised ev = Some e -> outcome r = Raise e.
Proof.
  intros w ev e r H R. destruct (run_error_names w) as (_ & _ & C).
  exact (C ev e H R).
Qed.

(** ** What a run never does *)

Lemma lock_follows_check_app t1 : forall prev t2,
  lock_follows_check self prev t1 = true ->
  (forall p, lock_follows_check self p t2 = true) ->
  lock_follows_check self prev (t1 ++ t2) = true.
Proof.
  induction t1 as [|e t1 IH]; intros prev t2 H1 H2; [apply H2|].
  cbn [app lock_follows_check] in *. apply andb_prop in H1 as [A B].
  rewrite A. cbn [andb]. now apply IH.
Qed.

Lemma lock_follows_check_loop t :
  forallb is_loop_event t = true ->
  forall prev, lock_follows_check self prev t = true.
Proof.
  induction t as [|e t IH]; intros H prev; [reflexivity|].
  cbn [forallb] in H. apply andb_prop in H as [He Ht].
  cbn [lock_follows_check]. rewrite (IH Ht).
  destruct e; try discriminate He; reflexivity.
Qed.

(** X5: in every run, a lock call is made only right after an existence
    check that returned True, and only for the lock id of the mapset just
    checked: no mapset is locked unchecked, and none after a check that
    failed. *)
Theorem X5_lock_only_after_positive_check : forall w,
  lock_follows_check self None (exec_trace (run env self (init_state w)))
  = true.
Proof.
  intros w.
  apply (run_lift
           (fun _ _ t => forall prev, lock_follows_check self prev t = true)).
  - reflexivity.
  - intros _ t1 r t2 A1 A2 prev. now apply lock_follows_check_app.
  - intros _ name st r st' t O prev. remember (r, st', t) as x eqn:Ex.
    destruct O as [e w'|w'|e w'|w'|z w' Hz]; inversion Ex; subst r st' t;
      cbn; rewrite ?String.eqb_refl; reflexivity.
  - intros steps k st r st' t O.
    apply lock_follows_check_loop. now apply step_outcome_events in O.
  - reflexivity.
  - intros _ r prev. reflexivity.
Qed.

Lemma extend_outcome_expiration name ks r t :
  extend_outcome self name ks r t ->
  forallb (expiration_ok self) t = true.
Proof.
  induction 1 as [|k ks z r t Hz X IH| |]; cbn; rewrite ?Z.eqb_refl; auto.
Qed.

(** X6: in every run, every lock call asks for an expiration of
    [process_time_limit * process_num_limit] and every extension call for
    [process_time_limit * 2]. *)
Theorem X6_expirations : forall w,
  forallb (expiration_ok self) (exec_trace (run env self (init_state w)))
  = true.
Proof.
  intros w.
  apply (run_lift (fun _ _ t => forallb (expiration_ok self) t = true)).
  - reflexivity.
  - intros _ t1 r t2 A1 A2. now rewrite forallb_app, A1, A2.
  - intros _ name st r st' t O. remember (r, st', t) as x eqn:Ex.
    destruct O as [e w'|w'|e w'|w'|z w' Hz]; inversion Ex; subst r st' t;
      cbn; rewrite ?Z.eqb_refl; reflexivity.
  - intros steps k st r st' t O. remember (r, st', t) as x eqn:Ex.
    destruct O as [e s1 L S|s1 L S|s1 L S G'|name e s1 tx L S G' X
                  |name s1 tx L S G' X E|name rm s1 tx L S G' X N];
      inversion Ex; subst r st' t; clear Ex; try reflexivity;
      cbn [forallb expiration_ok andb];
      rewrite ?forallb_app, (extend_outcome_expiration _ _ _ _ X);
      reflexivity.
  - reflexivity.
  - intros _ r. reflexivity.
Qed.





(** ** Acquisition, source by source *)

Lemma check_calls_app a b : check_calls (a ++ b) = check_calls a ++ check_calls b.
Proof. apply flat_map_app. Qed.

Lemma updates_app a b : updates (a ++ b) = updates a ++ updates b.
Proof. apply flat_map_app. Qed.

Lemma extend_calls_app a b :
  extend_calls (a ++ b) = extend_calls a ++ extend_calls b.
Proof. apply flat_map_app. Qed.

Lemma acquire_outcome_reads name (st : state W) r st' t :
  acquire_outcome self name st (r, st', t) ->
  check_calls t = [name] /\ updates t = []
  /\ match r with
     | Ret _ =>
         lock_calls t = [lock_id_of self name]
         /\ granted t = [lock_id_of self name]
         /\ log_calls t = [MsgLocked name]
         /\ lock_ids st' =
              Dict.set (lock_id_of self name) name (lock_ids st)
     | Raise _ =>
         (lock_calls t = [] \/ lock_calls t = [lock_id_of self name])
         /\ granted t = [] /\ log_calls t = []
         /\ lock_ids st' = lock_ids st
     end.
Proof.
  intros O. remember (r, st', t) as x eqn:Ex.
  destruct O as [e w'|w'|e w'|w'|z w' Hz]; inversion Ex; subst r st' t;
    cbn; rewrite ?Z.eqb_refl; cbn; auto 10.
  destruct (Z.eqb_spec z 0); [contradiction|]. cbn. auto 10.
Qed.

Lemma acquire_loop_cases names : forall st,
  match for_each names (_check_lock_mapset env self) st with
  | (Ret _, st', t) =>
      check_calls t = names
      /\ lock_calls t = map (lock_id_of self) names
      /\ granted t = map (lock_id_of self) names
      /\ log_calls t = map MsgLocked names
      /\ updates t = []
      /\ lock_ids st' = registered self names (lock_ids st)
  | (Raise e, st', t) =>
      exists pre n post,
        names = pre ++ n :: post
        /\ check_calls t = pre ++ [n]
        /\ granted t = map (lock_id_of self) pre
        /\ lock_ids st' = registered self pre (lock_ids st)
        /\ (lock_calls t = map (lock_id_of self) pre
            \/ lock_calls t = map (lock_id_of self) (pre ++ [n]))
  end.
Proof.
  induction names as [|n names IH]; intros st; [cbn; auto 10|].
  rewrite for_each_cons.
  pose proof (_check_lock_mapset_outcome n st) as O.
  destruct (_check_lock_mapset env self n st) as [[r1 st1] t1].
  apply acquire_outcome_reads in O. destruct O as (Ck & Up & O).
  destruct r1 as [[]|e].
  - destruct O as (Lc & Gr & Lg & Ls). specialize (IH st1).
    destruct (for_each names _ st1) as [[[[]|e] st2] t2].
    + destruct IH as (Ck2 & Lc2 & Gr2 & Lg2 & Up2 & Ls2).
      rewrite check_calls_app, lock_calls_app, granted_app, log_calls_app,
        updates_app, Ck, Lc, Gr, Lg, Up, Ck2, Lc2, Gr2, Lg2, Up2, Ls2, Ls.
      cbn. auto 10.
    + destruct IH as (pre & m & post & -> & Ck2 & Gr2 & Ls2 & Lc2).
      exists (n :: pre), m, post.
      rewrite check_calls_app, lock_calls_app, granted_app,
        Ck, Lc, Gr, Ck2, Gr2, Ls2, Ls.
      cbn. repeat split. destruct Lc2 as [-> | ->]; auto.
  - destruct O as (Lc & Gr & Lg & Ls). exists [], n, names.
    rewrite Ck, Gr, Ls. cbn. repeat split. exact Lc.
Qed.

(** X8: [_check_lock_source_mapsets] acquires the sources in list order and
    stops at the first one it cannot acquire.  When it returns, every source
    was checked and locked once, in order.  When it raises on a non-empty
    list, the list splits at the failing source: the sources before it were
    all granted and stay registered, the failing one was checked (and
    possibly asked for), and no later source was checked or locked; nothing
    is released here.  On the empty list it raises without any call. *)
Theorem X8_sources_acquired_in_order_until_first_failure :
  forall sources st,
  match _check_lock_source_mapsets env self sources st with
  | (Ret _, st', t) =>
      sources <> []
      /\ check_calls t = sources
      /\ lock_calls t = map (lock_id_of self) sources
      /\ granted t = map (lock_id_of self) sources
      /\ lock_ids st' = registered self sources (lock_ids st)
  | (Raise e, st', t) =>
      (sources = [] /\ e = AsyncProcessError MsgEmptySources
       /\ t = [] /\ lock_ids st' = lock_ids st)
      \/ exists pre n post,
           sources = pre ++ n :: post
           /\ check_calls t = pre ++ [n]
           /\ granted t = map (lock_id_of self) pre
           /\ lock_ids st' = registered self pre (lock_ids st)
           /\ (lock_calls t = map (lock_id_of self) pre
               \/ lock_calls t = map (lock_id_of self) (pre ++ [n]))
  end.
Proof.
  intros sources st. rewrite _check_lock_source_mapsets_eq.
  destruct sources as [|n l]; [left; auto|].
  pose proof (acquire_loop_cases (n :: l) st) as A.
  destruct (for_each (n :: l) _ st) as [[[[]|e] st'] t].
  - destruct A as (Ck & Lc & Gr & _ & _ & Ls). repeat split; auto.
    discriminate.
  - right. exact A.
Qed.

(** ** The registry of a run that returns *)

Lemma existsb_eqb_In x l : existsb (String.eqb x) l = true <-> In x l.
Proof.
  rewrite existsb_exists. split.
  - intros (y & Hy & E). apply String.eqb_eq in E. now subst.
  - intros H. exists x. split; [assumption|apply String.eqb_refl].
Qed.

Lemma first_seen_ext l : forall s1 s2,
  (forall y, In y s1 <-> In y s2) ->
  first_seen s1 l = first_seen s2 l.
Proof.
  induction l as [|x l IH]; intros s1 s2 H; [reflexivity|].
  cbn [first_seen].
  assert (E : existsb (String.eqb x) s1 = existsb (String.eqb x) s2).
  { apply eq_true_iff_eq. rewrite !existsb_eqb_In. apply H. }
  rewrite E. destruct (existsb _ s2); [now apply IH|].
  f_equal. apply IH. intros y. cbn. now rewrite H.
Qed.

Lemma first_seen_In l : forall seen x,
  In x (first_seen seen l) -> ~ In x seen /\ In x l.
Proof.
  induction l as [|a l IH]; intros seen x; cbn [first_seen]; [contradiction|].
  destruct (existsb (String.eqb a) seen) eqn:E.
  - intros H. apply IH in H as (N & I). split; [assumption|now right].
  - intros [<-|H].
    + split; [|now left]. intros I. apply existsb_eqb_In in I. congruence.
    + apply IH in H as (N & I). split; [|now right].
      intros J. apply N. now right.
Qed.

Lemma In_first_seen l : forall seen x,
  In x l -> In x seen \/ In x (first_seen seen l).
Proof.
  induction l as [|a l IH]; intros seen x; cbn [first_seen]; [contradiction|].
  destruct (existsb (String.eqb a) seen) eqn:E.
  - intros [<-|H]; [left; now apply existsb_eqb_In|now apply IH].
  - intros [<-|H]; [right; now left|].
    destruct (IH (a :: seen) x H) as [[<-|I]|I]; auto.
    + right. now left.
    + right. now right.
Qed.

Lemma first_seen_NoDup l : forall seen, NoDup (first_seen seen l).
Proof.
  induction l as [|a l IH]; intros seen; cbn [first_seen]; [constructor|].
  destruct (existsb (String.eqb a) seen); [apply IH|].
  constructor; [|apply IH].
  intros H. apply first_seen_In in H as (N & _). apply N. now left.
Qed.

Lemma first_seen_length l : forall seen,
  (length (first_seen seen l) <= length l)%nat.
Proof.
  induction l as [|a l IH]; intros seen; cbn [first_seen length]; [lia|].
  destruct (existsb (String.eqb a) seen).
  - specialize (IH seen). lia.
  - specialize (IH (a :: seen)). cbn [length]. lia.
Qed.

Lemma keys_entries l : Dict.keys (entries self l) = map (lock_id_of self) l.
Proof. unfold Dict.keys, entries. rewrite map_map. reflexivity. Qed.

Lemma values_entries l : Dict.values (entries self l) = l.
Proof. unfold Dict.values, entries. rewrite map_map. apply map_id. Qed.

Lemma In_keys_entries x l :
  In (lock_id_of self x) (Dict.keys (entries self l)) <-> In x l.
Proof.
  rewrite keys_entries, in_map_iff. split.
  - intros (y & E & H). apply lock_id_of_inj in E. now subst.
  - intros H. now exists x.
Qed.

Lemma set_entries_same x l :
  In x l -> Dict.set (lock_id_of self x) x (entries self l) = entries self l.
Proof.
  induction l as [|a l IH]; [contradiction|]. cbn.
  destruct (String.eqb_spec (lock_id_of self x) (lock_id_of self a)) as [E|N].
  - apply lock_id_of_inj in E. now subst.
  - intros [->|H]; [congruence|]. f_equal. now apply IH.
Qed.

Lemma get_entries x l :
  In x l -> Dict.get (lock_id_of self x) (entries self l) = Some x.
Proof.
  induction l as [|a l IH]; [contradiction|]. cbn.
  destruct (String.eqb_spec (lock_id_of self x) (lock_id_of self a)) as [E|N].
  - apply lock_id_of_inj in E. now subst.
  - intros [->|H]; [congruence|]. now apply IH.
Qed.

Lemma registered_entries names : forall seen,
  registered self names (entries self seen)
  = entries self (seen ++ first_seen seen names).
Proof.
  induction names as [|x names IH]; intros seen.
  - cbn. now rewrite app_nil_r.
  - cbn [registered fold_left first_seen].
    fold (registered self names
            (Dict.set (lock_id_of self x) x (entries self seen))).
    destruct (existsb (String.eqb x) seen) eqn:E.
    + apply existsb_eqb_In in E. rewrite set_entries_same by assumption.
      apply IH.
    + rewrite set_fresh.
      * change (entries self seen ++ [(lock_id_of self x, x)])
          with (entries self seen ++ entries self [x]).
        unfold entries at 1 2. rewrite <- map_app.
        fold (entries self (seen ++ [x])). rewrite IH.
        rewrite <- app_assoc. cbn [app]. do 3 f_equal.
        apply first_seen_ext. intros y. rewrite in_app_iff. cbn. tauto.
      * rewrite In_keys_entries. intros I. apply existsb_eqb_In in I.
        congruence.
Qed.

Lemma lock_phase_as_loop st :
  request_data self <> [] ->
  lock_phase env self st
  = for_each (target_mapset_name self :: request_data self)
      (_check_lock_mapset env self) st.
Proof.
  intros N. rewrite lock_phase_eq, for_each_cons.
  destruct (_check_lock_mapset env self _ st) as [[[[]|e] st1] t1];
    [|reflexivity].
  rewrite _check_lock_source_mapsets_eq.
  destruct (request_data self); [congruence|reflexivity].
Qed.

(** The parts of a run that returns. *)
Lemma run_returned_parts w :
  let r := run env self (init_state w) in
  outcome r = Ret tt ->
  request_data self <> []
  /\ exists w1 st1 tl st2 tm,
      exec_trace r = EvSetup (Ret tt) :: tl ++ tm
      /\ for_each (target_mapset_name self :: request_data self)
           (_check_lock_mapset env self) (init_state w1) = (Ret tt, st1, tl)
      /\ for_each (Dict.keys (lock_ids st1))
           (merge_step env self (Z.of_nat (length (request_data self))))
           (mkState (lock_ids st1) 1 [] (world st1)) = (Ret tt, st2, tm)
      /\ lock_ids (final r) = lock_ids st1
      /\ lock_ids st1
         = entries self (target_mapset_name self
                           :: first_seen [target_mapset_name self]
                                (request_data self)).
Proof.
  intros r O. subst r.
  destruct (run_cases w) as (st & C & [(e & O' & _)|(w1 & tm0 & E & T)]);
    [congruence|].
  rewrite O in E. rewrite _merge_mapsets_eq in E.
  destruct (lock_phase env self (init_state w1)) as [[[[]|e] st1] tl] eqn:Lp;
    [|discriminate E].
  pose proof Lp as Lr. apply lock_phase_returned in Lr as (N & D).
  split; [exact N|].
  rewrite (lock_phase_as_loop _ N) in Lp.
  destruct (for_each (Dict.keys (lock_ids st1)) _ _) as [[r2 st2] tm] eqn:Lo.
  inversion E; subst r2 st tm0.
  pose proof (merge_loop_frame (Z.of_nat (length (request_data self)))
                (Dict.keys (lock_ids st1))
                (mkState (lock_ids st1) 1 [] (world st1))) as F.
  rewrite Lo in F. destruct F as (L2 & _). cbn [lock_ids] in L2.
  pose proof (_final_cleanup_spec st2) as Cl. rewrite C in Cl.
  destruct Cl as (L & _).
  exists w1, st1, tl, st2, tm. rewrite T, L, L2.
  repeat split; auto.
  rewrite D.
  change (registered self (target_mapset_name self :: request_data self)
            (lock_ids (init_state w1)))
    with (registered self (request_data self)
            (entries self [target_mapset_name self])).
  now rewrite registered_entries.
Qed.

(** X9: when a run returns, the registry holds the target first and then the
    requested mapsets in order of first appearance, each once and each under
    its own lock id: a mapset listed twice, or the target listed as a source,
    adds no entry.  Looking up the lock id of the target or of any requested
    mapset gives that mapset back, and the registry has at most one entry
    more than the request has names. *)
Theorem X9_registry_of_a_returning_run : forall w,
  let r := run env self (init_state w) in
  outcome r = Ret tt ->
  lock_ids (final r)
  = entries self (target_mapset_name self
                    :: first_seen [target_mapset_name self]
                         (request_data self))
  /\ (forall n, In n (target_mapset_name self :: request_data self) ->
        Dict.get (lock_id_of self n) (lock_ids (final r)) = Some n)
  /\ (length (lock_ids (final r)) <= 1 + length (request_data self))%nat.
Proof.
  intros w r O.
  destruct (run_returned_parts w O)
    as (_ & w1 & st1 & tl & st2 & tm & _ & _ & _ & L & D).
  fold r in L. rewrite L, D. split; [reflexivity|]. split.
  - intros n Hn. apply get_entries.
    destruct Hn as [<-|Hn]; [now left|].
    destruct (In_first_seen _ [target_mapset_name self] _ Hn) as [[<-|[]]|H];
      [now left|now right].
  - unfold entries. rewrite length_map. cbn [length].
    pose proof (first_seen_length (request_data self)
                  [target_mapset_name self]). lia.
Qed.

(** ** The merge loop, entry by entry *)

Lemma extend_outcome_calls name ks t :
  extend_outcome self name ks (Ret tt) t ->
  extend_calls t = ks /\ updates t = [] /\ log_calls t = [] /\ polls t = [].
Proof.
  intros X. remember (Ret tt) as r eqn:Er.
  induction X as [|k ks z r t Hz X IH| |]; try discriminate Er.
  - auto.
  - destruct (IH Er) as (A & B & C & D).
    unfold extend_calls, updates, log_calls, polls in *. cbn.
    rewrite A. auto.
Qed.

Lemma step_outcome_returned_reads steps k v (st : state W) st' t :
  step_outcome self steps k st (Ret tt, st', t) ->
  Dict.get k (lock_ids st) = Some v ->
  updates t = [MsgStep (step st) steps v (target_mapset_name self)]
  /\ log_calls t = updates t
  /\ polls t = [Ret false]
  /\ extend_calls t = Dict.keys (lock_ids st)
  /\ step st' = (if String.eqb v (target_mapset_name self)
                 then step st else step st + 1).
Proof.
  intros O G. remember (Ret tt, st', t) as x eqn:Ex.
  destruct O as [e s1 L S|s1 L S|s1 L S G'|name e s1 tx L S G' X
                |name s1 tx L S G' X E|name rm s1 tx L S G' X N];
    inversion Ex; subst st' t; clear Ex;
    assert (Ev : name = v) by congruence; subst name;
    destruct (extend_outcome_calls _ _ _ X) as (A & B & C & D);
    change (EvTerm (user_id self) (resource_id self) (Ret false) :: ?l)
      with ([EvTerm (user_id self) (resource_id self) (Ret false)] ++ l);
    rewrite !updates_app, !log_calls_app, !polls_app, !extend_calls_app,
      A, B, C, D, S; cbn; rewrite app_nil_r;
    destruct (String.eqb_spec v (target_mapset_name self));
    repeat split; congruence.
Qed.

Lemma merge_loop_returned steps its : forall st st' t,
  (forall k v, In (k, v) its -> Dict.get k (lock_ids st) = Some v) ->
  for_each (Dict.keys its) (merge_step env self steps) st = (Ret tt, st', t) ->
  merge_calls t = copies self its
  /\ updates t = progress self steps (step st) (Dict.values its)
  /\ log_calls t = updates t
  /\ polls t = map (fun _ => Ret false) its
  /\ extend_calls t = concat (map (fun _ => Dict.keys (lock_ids st)) its).
Proof.
  induction its as [|[k v] its IH]; intros st st' t G.
  - cbn. intros E. inversion E. auto.
  - unfold Dict.keys, Dict.values in *. cbn [map fst snd].
    rewrite for_each_cons.
    pose proof (merge_step_outcome steps k st) as O.
    pose proof (step_outcome_frame _ _ _ _ O) as F.
    destruct (merge_step env self steps k st) as [[[[]|e] st1] t1];
      [|discriminate].
    assert (Gk : Dict.get k (lock_ids st) = Some v) by (apply G; now left).
    destruct F as (L & _).
    destruct (step_outcome_returned_reads _ _ _ _ _ _ O Gk)
      as (U1 & Lg1 & P1 & X1 & S1).
    pose proof (step_outcome_returned _ _ _ _ _ _ O Gk) as M1.
    destruct (for_each (map fst its) _ st1) as [[r2 st2] t2] eqn:E2.
    intros E. inversion E; subst r2 st2 t.
    destruct (IH st1 st' t2) as (M2 & U2 & Lg2 & P2 & X2); [|exact E2|].
    { intros k' v' Hin. rewrite L. apply G. now right. }
    rewrite merge_calls_app, updates_app, log_calls_app, polls_app,
      extend_calls_app, M1, M2, U1, Lg1, Lg2, U1, U2, P1, P2, X1, X2, S1, L.
    change ((k, v) :: its) with ([(k, v)] ++ its). rewrite copies_app.
    cbn [progress app concat map]. unfold Dict.keys. auto.
Qed.

Lemma step_outcome_copy steps k v (st : state W) r st' t :
  step_outcome self steps k st (r, st', t) ->
  Dict.get k (lock_ids st) = Some v ->
  merge_calls t = [] \/ merge_calls t = copies self [(k, v)].
Proof.
  intros O G. remember (r, st', t) as x eqn:Ex.
  rewrite copies_cons, app_nil_r.
  destruct O as [e s1 L S|s1 L S|s1 L S G'|name e s1 tx L S G' X
                |name s1 tx L S G' X E|name rm s1 tx L S G' X N];
    inversion Ex; subst r st' t; clear Ex; auto.
  - left. rewrite <- (app_nil_r tx).
    now destruct (iteration_reads (user_id self) (resource_id self) tx []
                    (extend_outcome_quiet _ _ _ _ X)) as (_ & _ & _ & -> & _).
  - left. read_iteration X A B C D F Sh. now rewrite D.
  - right. assert (Ev : name = v) by congruence. subst name.
    read_iteration X A B C D F Sh. rewrite D. cbn.
    destruct (String.eqb_spec v (target_mapset_name self)); congruence.
Qed.

Lemma merge_loop_prefix steps its : forall st,
  (forall k v, In (k, v) its -> Dict.get k (lock_ids st) = Some v) ->
  match for_each (Dict.keys its) (merge_step env self steps) st with
  | (r, st', t) =>
      exists done rest, its = done ++ rest /\ merge_calls t = copies self done
  end.
Proof.
  induction its as [|[k v] its IH]; intros st G.
  - cbn. now exists [], [].
  - unfold Dict.keys in *. cbn [map fst]. rewrite for_each_cons.
    pose proof (merge_step_outcome steps k st) as O.
    pose proof (step_outcome_frame _ _ _ _ O) as F.
    destruct (merge_step env self steps k st) as [[r1 st1] t1].
    assert (Gk : Dict.get k (lock_ids st) = Some v) by (apply G; now left).
    destruct r1 as [[]|e].
    + destruct F as (L & _). specialize (IH st1).
      pose proof (step_outcome_returned _ _ _ _ _ _ O Gk) as M1.
      destruct (for_each (map fst its) _ st1) as [[r2 st2] t2].
      destruct IH as (done & rest & -> & M2).
      { intros k' v' Hin. rewrite L. apply G. now right. }
      exists ((k, v) :: done), rest. split; [reflexivity|].
      rewrite merge_calls_app, M1, M2.
      change ((k, v) :: done) with ([(k, v)] ++ done).
      now rewrite copies_app.
    + destruct (step_outcome_copy _ _ _ _ _ _ _ O Gk) as [M|M].
      * now exists [], ((k, v) :: its).
      * now exists [(k, v)], its.
Qed.

Lemma entries_get l k v :
  In (k, v) (entries self l) -> Dict.get k (entries self l) = Some v.
Proof.
  intros H. unfold entries in H. apply in_map_iff in H as (n & E & Hn).
  inversion E; subst. now apply get_entries.
Qed.

Lemma acquire_reads_more t :
  forallb is_acquire t = true -> extend_calls t = [].
Proof.
  intros H. apply (flat_map_quiet is_acquire); [|exact H].
  intros [] E; try discriminate E; reflexivity.
Qed.

(** What the calls of a run that returns are. *)
Lemma run_returned_reads w :
  let r := run env self (init_state w) in
  let names := target_mapset_name self
                 :: first_seen [target_mapset_name self] (request_data self) in
  let steps := Z.of_nat (length (request_data self)) in
  outcome r = Ret tt ->
  merge_calls (exec_trace r) = copies self (entries self names)
  /\ merged (exec_trace r) = merge_calls (exec_trace r)
  /\ updates (exec_trace r) = progress self steps 1 names
  /\ log_calls (exec_trace r)
     = map MsgLocked (target_mapset_name self :: request_data self)
         ++ updates (exec_trace r)
  /\ polls (exec_trace r) = map (fun _ => Ret false) names
  /\ extend_calls (exec_trace r)
     = concat (map (fun _ => map (lock_id_of self) names) names).
Proof.
  intros r names steps O.
  destruct (run_returned_parts w O)
    as (_ & w1 & st1 & tl & st2 & tm & T & Lp & Lo & _ & D).
  fold r in T. fold names in D. fold steps in Lo. rewrite T.
  pose proof (acquire_loop_frame
                (target_mapset_name self :: request_data self)
                (init_state w1)) as F.
  pose proof (acquire_loop_cases
                (target_mapset_name self :: request_data self)
                (init_state w1)) as A.
  rewrite Lp in F, A. destruct F as (Q & _).
  destruct A as (_ & _ & _ & Lg1 & U1 & _).
  destruct (acquire_reads tl Q) as (_ & M1 & G1 & P1 & _).
  pose proof (acquire_reads_more tl Q) as X1.
  pose proof (merge_loop_frame steps (Dict.keys (lock_ids st1))
                (mkState (lock_ids st1) 1 [] (world st1))) as F.
  rewrite Lo in F. destruct F as (_ & _ & _ & _ & _ & _ & _ & Mg).
  apply merge_loop_returned in Lo
    as (M2 & U2 & Lg2 & P2 & X2);
    [|intros k v Hin; cbn [lock_ids]; rewrite D in *; now apply entries_get].
  cbn [step lock_ids] in U2, X2.
  change (EvSetup (Ret tt) :: tl ++ tm) with ([EvSetup (Ret tt)] ++ tl ++ tm).
  rewrite !merge_calls_app, !merged_app, !updates_app, !log_calls_app,
    !polls_app, !extend_calls_app, M1, G1, U1, Lg1, P1, X1, M2, (Mg eq_refl),
    M2, U2, Lg2, U2, P2, X2, D, values_entries, keys_entries.
  cbn [merge_calls merged updates log_calls polls extend_calls flat_map app].
  repeat split; unfold entries; rewrite ?map_map; reflexivity.
Qed.

(** X10: when a run returns, exactly one merge-copy invocation was made for
    each requested mapset other than the target, in order of first
    appearance in the request, each into the target and each returned: a
    mapset listed twice is copied once, and the target listed as a source is
    not copied. *)
Theorem X10_each_requested_mapset_copied_once : forall w,
  let r := run env self (init_state w) in
  outcome r = Ret tt ->
  merge_calls (exec_trace r)
  = map (fun s => (s, target_mapset_name self))
      (first_seen [target_mapset_name self] (request_data self))
  /\ merged (exec_trace r) = merge_calls (exec_trace r).
Proof.
  intros w r O. destruct (run_returned_reads w O) as (M & G & _).
  fold r in M, G. split; [|exact G]. rewrite M.
  change (entries self (?a :: ?l)) with ((lock_id_of self a, a) :: entries self l).
  rewrite copies_cons, String.eqb_refl. cbn [app].
  apply copies_fresh. intros H. apply first_seen_In in H as (N & _).
  apply N. now left.
Qed.

(** X11: when a run returns, one progress message was sent for every entry
    of the registry, the target's own entry first: each shows the step
    counter (1 for the target and for the first mapset copied, then one more
    per copy), the number of requested names as the total, the entry's
    mapset and the target.  Each message was also logged, after the lines
    that report the locks, one per lock call. *)
Theorem X11_progress_messages_of_a_returning_run : forall w,
  let r := run env self (init_state w) in
  outcome r = Ret tt ->
  updates (exec_trace r)
  = progress self (Z.of_nat (length (request_data self))) 1
      (target_mapset_name self
         :: first_seen [target_mapset_name self] (request_data self))
  /\ log_calls (exec_trace r)
     = map MsgLocked (target_mapset_name self :: request_data self)
         ++ updates (exec_trace r).
Proof.
  intros w r O. destruct (run_returned_reads w O) as (_ & _ & U & L & _).
  auto.
Qed.

(** X12: when a run returns with [m] entries in the registry, the
    termination flag was polled [m] times, once per entry, and every poll
    was followed by an extension call for each of the [m] registered lock
    ids in registry order: [m * m] extension calls in all. *)
Theorem X12_polls_and_extensions_of_a_returning_run : forall w,
  let r := run env self (init_state w) in
  let ks := Dict.keys (lock_ids (final r)) in
  outcome r = Ret tt ->
  polls (exec_trace r) = map (fun _ => Ret false) ks
  /\ extend_calls (exec_trace r) = concat (map (fun _ => ks) ks)
  /\ length (extend_calls (exec_trace r)) = (length ks * length ks)%nat.
Proof.
  intros w r ks O.
  destruct (run_returned_reads w O) as (_ & _ & _ & _ & P & X).
  destruct (run_returned_parts w O)
    as (_ & w1 & st1 & tl & st2 & tm & _ & _ & _ & L & D).
  fold r in P, X, L. subst ks. rewrite L, D, keys_entries.
  rewrite P, X, !map_map. split; [reflexivity|]. split; [reflexivity|].
  assert (E : forall (l names : list string),
             length (concat (map (fun _ => l) names))
             = (length names * length l)%nat).
  { intros l names. induction names as [|n names IH]; [reflexivity|].
    cbn [map concat length]. rewrite length_app, IH. lia. }
  now rewrite E, length_map.
Qed.

Lemma fst_copies d :
  map fst (copies self d)
  = filter (fun n => negb (String.eqb n (target_mapset_name self)))
      (Dict.values d).
Proof. unfold copies. rewrite map_map. apply map_id. Qed.

(** X13: in every run, however it ends, the merge-copy invocations made are
    an initial part of the copies the registry calls for (one per entry
    other than the target, in registry order); in particular no mapset is
    copied twice and none out of order. *)
Theorem X13_copies_follow_the_registry : forall w,
  let r := run env self (init_state w) in
  (exists rest,
      copies self (lock_ids (final r)) = merge_calls (exec_trace r) ++ rest)
  /\ NoDup (map fst (merge_calls (exec_trace r))).
Proof.
  intros w r. subst r.
  destruct (run_cases w) as (st & C & [(e & O & T & L0)|(w1 & tm0 & E & T)]);
    rewrite T.
  - split; [now eexists|constructor].
  - pose proof (_final_cleanup_spec st) as Cl. rewrite C in Cl.
    destruct Cl as (L & _). rewrite L.
    cbn [merge_calls flat_map app]. fold (merge_calls tm0).
    rewrite _merge_mapsets_eq in E.
    pose proof (lock_phase_frame (init_state w1)) as F.
    destruct (lock_phase env self (init_state w1)) as [[[[]|e] st1] tl];
      destruct F as (Q & _ & R & _);
      destruct (acquire_reads tl Q) as (_ & M1 & _).
    + assert (R1 : registry_ok self (lock_ids st1)).
      { apply R. split; [constructor|intros ? ? []]. }
      set (steps := Z.of_nat (length (request_data self))) in *.
      set (st1' := mkState (lock_ids st1) 1 [] (world st1)) in *.
      pose proof (merge_loop_prefix steps (lock_ids st1) st1') as Pf.
      pose proof (merge_loop_frame steps (Dict.keys (lock_ids st1)) st1') as F.
      destruct (for_each _ _ st1') as [[r2 st2] tm].
      inversion E; subst r2 st tm0.
      destruct F as (L2 & _). cbn [lock_ids st1'] in L2.
      destruct Pf as (done & rest & D & M2).
      { intros k v Hin. now apply registry_ok_get. }
      rewrite merge_calls_app, M1, M2, L2, D, copies_app. cbn [app].
      split; [now exists (copies self rest)|].
      rewrite fst_copies. apply NoDup_filter.
      apply registry_values_NoDup in R1. rewrite D in R1.
      unfold Dict.values in *. rewrite map_app in R1.
      now apply NoDup_app_remove_r in R1.
    + inversion E; subst. rewrite M1. split; [now eexists|constructor].
Qed.

Lemma unlock_loop_only_unlocks ks : forall st,
  match for_each ks (unlock_one env) st with
  | (c, st', t) => length t = length (unlock_calls t)
  end.
Proof.
  induction ks as [|k ks IH]; intros st; [reflexivity|].
  rewrite for_each_cons. unfold unlock_one at 1, bind, call, ret.
  destruct (unlock env (world st) k) as [[z|e] w]; [|reflexivity].
  specialize (IH (with_world st w)).
  destruct (for_each ks _ (with_world st w)) as [[c st'] t].
  cbn [app unlock_calls flat_map length]. fold (unlock_calls t).
  now rewrite IH.
Qed.

(** X14: [_final_cleanup] calls the cleanup of the base class first and
    only then unlocks; it makes no other kind of call.  When the cleanup of
    the base class raises, [_final_cleanup] ends with that exception and no
    unlock call is made at all: the locks of the registry stay held. *)
Theorem X14_base_cleanup_first : forall st,
  match _final_cleanup env st with
  | (c, st', t) =>
      exists pc rest,
        t = EvParentCleanup pc :: rest
        /\ length rest = length (unlock_calls rest)
        /\ (forall e, pc = Raise e -> c = Raise e /\ rest = [])
  end.
Proof.
  intros st. unfold _final_cleanup, bind at 1, call.
  destruct (parent_final_cleanup env (world st)) as [[[]|e] w].
  - unfold bind, get_lock_ids. cbn [lock_ids with_world].
    pose proof (unlock_loop_only_unlocks (Dict.keys (lock_ids st))
                  (with_world st w)) as U.
    destruct (for_each _ _ (with_world st w)) as [[c st'] t].
    exists (Ret tt), t. cbn [app]. repeat split; try discriminate. exact U.
  - exists (Raise e), []. split; [reflexivity|]. split; [reflexivity|].
    intros e' E. inversion E. auto.
Qed.

(** X15: [_execute] calls [_setup] before anything else.  When [_setup]
    raises, that is the only call [_execute] makes and its exception is the
    outcome; the registry is still empty and final cleanup makes no unlock
    call. *)
Theorem X15_setup_first : forall w,
  let r := run env self (init_state w) in
  exists s rest,
    exec_trace r = EvSetup s :: rest
    /\ (forall e, s = Raise e ->
          rest = [] /\ outcome r = Raise e
          /\ lock_ids (final r) = [] /\ unlock_calls (cleanup_trace r) = []).
Proof.
  intros w r. subst r.
  destruct (run_registry w) as (_ & _ & (n & P) & _).
  destruct (run_cases w) as (st & C & [(e & O & T & L0)|(w1 & tm0 & E & T)]);
    rewrite T.
  - exists (Raise e), []. split; [reflexivity|].
    intros e' Ee. inversion Ee; subst e'.
    pose proof (_final_cleanup_spec st) as Cl. rewrite C in Cl.
    destruct Cl as (L & _). rewrite L0 in L.
    rewrite L in P. rewrite P. repeat split; auto. now destruct n.
  - exists (Ret tt), tm0. split; [reflexivity|]. discriminate.
Qed.

(** X16: in every run, the mapsets are checked in the order target first,
    then the sources as listed, up to the point where the run stops, and
    nothing else is ever checked; the lock calls are for the lock ids of the
    checked mapsets in the same order, all of them or all but the last. *)
Theorem X16_checks_and_locks_in_request_order : forall w,
  let r := run env self (init_state w) in
  (exists rest,
      target_mapset_name self :: request_data self
      = check_calls (exec_trace r) ++ rest)
  /\ (exists last,
        map (lock_id_of self) (check_calls (exec_trace r))
        = lock_calls (exec_trace r) ++ last
        /\ (length last <= 1)%nat).
Proof.
  intros w r. subst r.
  destruct (run_cases w) as (st & C & [(e & O & T & L0)|(w1 & tm0 & E & T)]);
    rewrite T.
  - split; [now eexists|]. exists []. split; [reflexivity|cbn; lia].
  - cbn [check_calls lock_calls flat_map app].
    fold (check_calls tm0). fold (lock_calls tm0).
    assert (Loop : forall steps ks st1,
               match for_each ks (merge_step env self steps) st1 with
               | (r, st', t) => check_calls t = [] /\ lock_calls t = []
               end).
    { intros steps ks st1.
      pose proof (merge_loop_frame steps ks st1) as F.
      pose proof (merge_loop_lift
                    (fun _ _ t => forallb is_loop_event t = true)
                    (fun _ => eq_refl)
                    (fun _ t1 _ t2 A B =>
                       eq_trans (forallb_app _ t1 t2)
                         (andb_true_intro (conj A B)))
                    (fun steps k st r st' t O =>
                       step_outcome_events steps k st r st' t O)
                    steps ks st1) as Q.
      destruct (for_each ks _ st1) as [[r st'] t].
      destruct F as (_ & Lc & _). split; [|exact Lc].
      apply (flat_map_quiet is_loop_event); [|exact Q].
      intros [] Ev; try discriminate Ev; reflexivity. }
    destruct (request_data self) as [|n l] eqn:Rq.
    + (* no source: the target alone is acquired, then the request is
         refused *)
      pose proof (_merge_mapsets_empty (init_state w1) Rq) as X.
      rewrite E in X. destruct X as (r0 & O & _).
      apply acquire_outcome_reads in O. destruct O as (Ck & _ & O).
      rewrite Ck. split; [now exists []|].
      destruct r0 as [[]|e].
      * destruct O as (Lc & _). rewrite Lc.
        exists []. split; [reflexivity|cbn; lia].
      * destruct O as ([Lc|Lc] & _); rewrite Lc.
        -- exists [lock_id_of self (target_mapset_name self)].
           split; [reflexivity|cbn; lia].
        -- exists []. split; [reflexivity|cbn; lia].
    + rewrite _merge_mapsets_eq in E.
      rewrite lock_phase_as_loop in E by (rewrite Rq; discriminate).
      rewrite Rq in E.
      pose proof (acquire_loop_cases (target_mapset_name self :: n :: l)
                    (init_state w1)) as A.
      destruct (for_each (target_mapset_name self :: n :: l) _ _)
        as [[[[]|e] st1] tl].
      * destruct A as (Ck & Lc & _).
        specialize (Loop (Z.of_nat (length (n :: l)))
                      (Dict.keys (lock_ids st1))
                      (mkState (lock_ids st1) 1 [] (world st1))).
        destruct (for_each (Dict.keys (lock_ids st1)) _ _)
          as [[r2 st2] tm].
        inversion E; subst. destruct Loop as (Ck2 & Lc2).
        rewrite check_calls_app, lock_calls_app, Ck, Lc, Ck2, Lc2, !app_nil_r.
        split; [exists []; now rewrite app_nil_r|]. exists [].
        rewrite app_nil_r. split; [reflexivity|cbn; lia].
      * inversion E; subst.
        destruct A as (pre & m & post & -> & Ck & _ & _ & Lc).
        rewrite Ck. split.
        -- exists post. now rewrite <- app_assoc.
        -- destruct Lc as [-> | ->].
           ++ exists [lock_id_of self m]. now rewrite map_app.
           ++ exists []. rewrite app_nil_r. split; [reflexivity|cbn; lia].
Qed.

End MergingFacts.

(** * The claims on concrete runs *)

(** C1 fails as worded on the example of the specification: target A,
    sources A, B, C and a lock service that grants everything.  Four lock
    calls succeed (A twice) and three unlock calls are made. *)
Lemma C1_counterexample :
  ~ locks_balance (Sim.go Sim.easy "A" ["A"; "B"; "C"]).
Proof. unfold locks_balance. vm_compute. discriminate. Qed.

(** A run that fails at the second lock of B still unlocks A and B. *)
Lemma C1_witness :
  let r := Sim.go Sim.strict "A" ["B"; "B"] in
  outcome r = Raise (AsyncProcessError (MsgAlreadyLocked "B"))
  /\ unlock_calls (cleanup_trace r) = ["g/l/A"; "g/l/B"]
  /\ locks_balance r.
Proof.
  destruct (C1_unlocks_match_granted_ids (Sim.env Sim.strict)
              (Sim.job "A" ["B"; "B"]) Sim.start eq_refl)
    as (U & _ & _ & _ & B).
  split; [reflexivity|]. split; [exact U|].
  apply B. vm_compute. repeat constructor; cbn; intuition discriminate.
Defined.




Lemma C4_witness :
  let r := Sim.go Sim.easy "A" ["B"; "C"] in
  outcome r = Ret tt
  /\ lock_calls (exec_trace r) = ["g/l/A"; "g/l/B"; "g/l/C"]
  /\ merge_calls (exec_trace r) = [("B", "A"); ("C", "A")].
Proof.
  assert (ND : NoDup ["B"; "C"]).
  { repeat constructor; cbn; intuition discriminate. }
  assert (Nt : ~ In "A" ["B"; "C"]).
  { cbn. intuition discriminate. }
  destruct (C4_successful_run_counts (Sim.env Sim.easy)
              (Sim.job "A" ["B"; "C"]) Sim.start
              ltac:(discriminate) ND Nt eq_refl)
    as (O & L & M & _).
  split; [exact O|]. split; [exact L|exact M].
Defined.



(** C7 fails as worded when a copy raises: the counter has already been
    incremented for it. *)
Lemma C7_counterexample :
  ~ step_follows_merged (Sim.go Sim.copy_fails "A" ["B"]).
Proof. unfold step_follows_merged. vm_compute. intros H. now apply H. Qed.

(** C9 fails as worded: an unlock that returns 0 is not logged, and an unlock
    that raises ends the cleanup before the remaining ids are tried. *)
Lemma C9_counterexample :
  ~ cleanup_is_best_effort (Sim.go Sim.unlock_refuses "A" ["B"])
  /\ ~ cleanup_is_best_effort (Sim.go Sim.unlock_fails "A" ["B"]).
Proof.
  split.
  - intros (_ & _ & L). apply (L "g/l/A" (Ret 0)); [|reflexivity|reflexivity].
    vm_compute. intuition.
  - intros (U & _). vm_compute in U. discriminate.
Qed.

(** With a lock service that refuses an id already held, the job of the
    specification's example stops at the second lock call for A: the hypothesis of C2
    that every call is granted does not hold of that run. *)
Example strict_service_refuses_second_lock :
  let r := Sim.go Sim.strict "A" ["A"; "B"; "C"] in
  outcome r = Raise (AsyncProcessError (MsgAlreadyLocked "A"))
  /\ lock_calls (exec_trace r) = ["g/l/A"; "g/l/A"]
  /\ unlock_calls (cleanup_trace r) = ["g/l/A"].
Proof. vm_compute. repeat split. Qed.

(** The text of a termination error. *)
Example termination_message_text :
  render (MsgTerminated 2 2)
  = "Mapset merging was terminated by user request at setp 2 of 2".
Proof. reflexivity. Qed.

(** * More concrete runs *)

(** The copy of B raises: that exception is the outcome. *)
Lemma X4_witness :
  outcome (Sim.go Sim.copy_fails "A" ["B"]) = Raise (External "copy").
Proof.
  apply (X4_collaborator_exceptions_propagate (Sim.env Sim.copy_fails)
           (Sim.job "A" ["B"]) Sim.start
           (EvMerge "B" "A" (Raise (External "copy")))).
  - vm_compute. repeat (first [left; reflexivity | right]).
  - reflexivity.
Defined.

(** A request that names B twice and the target A itself. *)
Lemma X9_witness :
  let r := Sim.go Sim.easy "A" ["B"; "A"; "B"; "C"] in
  lock_ids (final r) = [("g/l/A", "A"); ("g/l/B", "B"); ("g/l/C", "C")]
  /\ (forall n, In n ["A"; "B"; "A"; "B"; "C"] ->
        Dict.get ("g/l/" ++ n)%string (lock_ids (final r)) = Some n)
  /\ (length (lock_ids (final r)) <= 5)%nat.
Proof.
  exact (X9_registry_of_a_returning_run (Sim.env Sim.easy)
           (Sim.job "A" ["B"; "A"; "B"; "C"]) Sim.start eq_refl).
Defined.

Lemma X10_witness :
  let r := Sim.go Sim.easy "A" ["B"; "A"; "B"; "C"] in
  merge_calls (exec_trace r) = [("B", "A"); ("C", "A")]
  /\ merged (exec_trace r) = merge_calls (exec_trace r).
Proof.
  exact (X10_each_requested_mapset_copied_once (Sim.env Sim.easy)
           (Sim.job "A" ["B"; "A"; "B"; "C"]) Sim.start eq_refl).
Defined.

Lemma X11_witness :
  let r := Sim.go Sim.easy "A" ["B"; "A"; "B"; "C"] in
  updates (exec_trace r)
  = [MsgStep 1 4 "A" "A"; MsgStep 1 4 "B" "A"; MsgStep 2 4 "C" "A"]
  /\ log_calls (exec_trace r)
     = [MsgLocked "A"; MsgLocked "B"; MsgLocked "A"; MsgLocked "B";
        MsgLocked "C"] ++ updates (exec_trace r).
Proof.
  exact (X11_progress_messages_of_a_returning_run (Sim.env Sim.easy)
           (Sim.job "A" ["B"; "A"; "B"; "C"]) Sim.start eq_refl).
Defined.

Lemma X12_witness :
  let r := Sim.go Sim.easy "A" ["B"; "A"; "B"; "C"] in
  polls (exec_trace r) = [Ret false; Ret false; Ret false]
  /\ extend_calls (exec_trace r)
     = ["g/l/A"; "g/l/B"; "g/l/C"; "g/l/A"; "g/l/B"; "g/l/C";
        "g/l/A"; "g/l/B"; "g/l/C"]
  /\ length (extend_calls (exec_trace r)) = 9%nat.
Proof.
  exact (X12_polls_and_extensions_of_a_returning_run (Sim.env Sim.easy)
           (Sim.job "A" ["B"; "A"; "B"; "C"]) Sim.start eq_refl).
Defined.
